(** * Lazy score expressions and low-rank score matrices

    A shallow embedding of [src/rime/util/score_array.py]: the batch-size
    heuristic [get_batch_size], the [LazyScoreExpression] tree, the
    [LowRankDataFrame] leaf and the batched aggregation [score_op].

    Conventions of the embedding.
    - A Python exception is a value of [pyerr]; a call that may raise
      returns a [result].
    - A two-dimensional NumPy array is an [ndarray]: its number of columns
      and its rows.  The number of rows is the length of the row list, the
      number of columns is stored (an array with no row still has a width).
    - Array entries are [num]: the real numbers extended with the IEEE
      special values [+inf], [-inf] and [NaN].  Arithmetic is exact:
      rounding and the sign of zero are not modelled.
    - Row and column labels are strings, held in sequences.  The factor
      arrays and the labels are taken to support NumPy indexing (the class
      uses [.shape], [@] and [[key]] on the fields it annotates as lists);
      the kind of the container is not modelled. *)

From Stdlib Require Import String.
From Stdlib Require Import List ZArith QArith Qabs Qround Reals Lra Lia Bool Arith.
Import ListNotations.

Set Implicit Arguments.
Set Warnings "-register-all".

(** ** Exceptions *)

Inductive pyerr : Set :=
| AssertionError
| AttributeError
| IndexError
| NotImplementedError
| TypeError
| ValueError
| ZeroDivisionError.

Inductive result (A : Type) : Type :=
| Ok (a : A)
| Err (e : pyerr).

Arguments Ok {A} a.
Arguments Err {A} e.

Definition bind {A B : Type} (c : result A) (k : A -> result B) : result B :=
  match c with
  | Ok a => k a
  | Err e => Err e
  end.

Notation "x <- c ;; k" := (bind c (fun x => k))
  (at level 61, c at next level, right associativity).

Notation "'assert' b 'else' e ;; k" := (if b then k else Err e)
  (at level 61, b at level 99, e at level 0, right associativity).

Section MapM.
Context {A B : Type} (f : A -> result B).

(** A list comprehension whose body may raise: the first exception wins. *)
Fixpoint mapM (l : list A) : result (list B) :=
  match l with
  | [] => Ok []
  | x :: l' => y <- f x ;; ys <- mapM l' ;; Ok (y :: ys)
  end.
End MapM.

Section ZipM.
Context {A B C : Type} (f : A -> B -> result C).

(** A comprehension over [zip(l, l')] whose body may raise. *)
Fixpoint zipM (l : list A) (l' : list B) : result (list C) :=
  match l, l' with
  | x :: t, y :: t' => z <- f x y ;; zs <- zipM t t' ;; Ok (z :: zs)
  | _, _ => Ok []
  end.
End ZipM.

(** ** Lists *)

Fixpoint zip_with {A B C : Type} (f : A -> B -> C) (l : list A) (l' : list B) : list C :=
  match l, l' with
  | x :: t, y :: t' => f x y :: zip_with f t t'
  | _, _ => []
  end.

(** Python's [zip( *ll )]: the tuples of the i-th elements, as long as the
    shortest list. *)
Fixpoint zip_star {A : Type} (ll : list (list A)) : list (list A) :=
  match ll with
  | [] => []
  | [l] => map (fun x => [x]) l
  | l :: ls => zip_with cons l (zip_star ls)
  end.

Fixpoint set_nth {A : Type} (n : nat) (v : A) (l : list A) : list A :=
  match l, n with
  | [], _ => []
  | _ :: t, O => v :: t
  | x :: t, S n' => x :: set_nth n' v t
  end.

Fixpoint find_pos (x : string) (l : list string) : option nat :=
  match l with
  | [] => None
  | y :: t => if String.eqb x y then Some O
              else match find_pos x t with
                   | Some p => Some (S p)
                   | None => None
                   end
  end.

Fixpoint has_dup (l : list string) : bool :=
  match l with
  | [] => false
  | x :: t => existsb (String.eqb x) t || has_dup t
  end.

(** ** Two-dimensional arrays *)

Record ndarray (A : Type) : Type := mk_ndarray {
  ncols : nat;
  data : list (list A)
}.

(** The position an integer index denotes on an axis of length [n]:
    negative indices count from the end. *)
Definition np_index (n : nat) (k : Z) : result nat :=
  if ((0 <=? k) && (k <? Z.of_nat n))%Z then Ok (Z.to_nat k)
  else if ((- Z.of_nat n <=? k) && (k <? 0))%Z then Ok (Z.to_nat (Z.of_nat n + k))
  else Err IndexError.

(** [l[keys]] for an array [l] and a list of integer indices. *)
Definition take {A : Type} (d : A) (l : list A) (keys : list Z) : result (list A) :=
  idx <- mapM (np_index (length l)) keys ;;
  Ok (map (fun i => nth i l d) idx).

Section Arrays.
Context {A : Type}.

Definition nrows (m : ndarray A) : nat := length (data m).

Definition array_shape (m : ndarray A) : nat * nat := (nrows m, ncols m).

(** Every row has the width of the array: what NumPy guarantees. *)
Definition rect (m : ndarray A) : bool :=
  forallb (fun r => length r =? ncols m) (data m).

Fixpoint columns_of (width : nat) (rows : list (list A)) : list (list A) :=
  match rows with
  | [] => repeat [] width
  | r :: rs => zip_with cons r (columns_of width rs)
  end.

(** [m.T] *)
Definition transpose (m : ndarray A) : ndarray A :=
  {| ncols := nrows m; data := columns_of (ncols m) (data m) |}.

(** [m[keys]] for a list of row indices. *)
Definition take_rows (m : ndarray A) (keys : list Z) : result (ndarray A) :=
  rows <- take [] (data m) keys ;;
  Ok {| ncols := ncols m; data := rows |}.

(** [np.vstack(ms)] (and [scipy.sparse.vstack]). *)
Definition vstack (ms : list (ndarray A)) : result (ndarray A) :=
  match ms with
  | [] => Err ValueError
  | m :: rest =>
      assert forallb (fun x => ncols x =? ncols m) rest else ValueError ;;
      Ok {| ncols := ncols m; data := concat (map (@data A) ms) |}
  end.

(** [np.pad(m, ((0, below), (0, right)), constant_values=c)] *)
Definition np_pad (m : ndarray A) (below right : nat) (c : A) : ndarray A :=
  {| ncols := ncols m + right;
     data := map (fun r => r ++ repeat c right) (data m)
             ++ repeat (repeat c (ncols m + right)) below |}.

(** [m[i, j] = v] *)
Definition setitem (m : ndarray A) (i j : Z) (v : A) : result (ndarray A) :=
  r <- np_index (nrows m) i ;;
  c <- np_index (ncols m) j ;;
  Ok {| ncols := ncols m;
        data := set_nth r (set_nth c v (nth r (data m) [])) (data m) |}.

Definition amap (f : A -> A) (m : ndarray A) : ndarray A :=
  {| ncols := ncols m; data := map (map f) (data m) |}.

(** The entry an operand of shape [(nrows m, ncols m)] contributes at
    [(i, j)] of a broadcast result: an axis of length 1 is repeated. *)
Definition bget (d : A) (m : ndarray A) (i j : nat) : A :=
  nth (if ncols m =? 1 then 0 else j)
      (nth (if nrows m =? 1 then 0 else i) (data m) []) d.

Definition bcast_dim (a b : nat) : result nat :=
  if a =? b then Ok a
  else if a =? 1 then Ok b
  else if b =? 1 then Ok a
  else Err ValueError.

(** An element-wise binary operation on two arrays, with NumPy's
    broadcasting of axes of length 1. *)
Definition broadcast2 (d : A) (f : A -> A -> A) (x y : ndarray A) : result (ndarray A) :=
  r <- bcast_dim (nrows x) (nrows y) ;;
  c <- bcast_dim (ncols x) (ncols y) ;;
  Ok {| ncols := c;
        data := map (fun i => map (fun j => f (bget d x i j) (bget d y i j)) (seq 0 c))
                    (seq 0 r) |}.

(** All entries, row by row. *)
Definition entries (m : ndarray A) : list A := concat (data m).

(** A reduction method of an array ([m.max()], [m.min()]) whose binary
    operation is [f]: NumPy raises on an array without entries. *)
Definition reduce_all (f : A -> A -> A) (m : ndarray A) : result A :=
  match entries m with
  | [] => Err ValueError
  | x :: t => Ok (fold_left f t x)
  end.
End Arrays.

(** ** Numbers

    The entries of the arrays: exact reals with the IEEE special values.
    [nexp], [nlog], [ndiv] follow NumPy, which returns an infinity or a NaN
    (with a warning at most) where the real function is undefined. *)

Inductive num : Type :=
| Fin (r : R)
| PInf
| NInf
| NaN.

Definition Rsign (r : R) : comparison :=
  match total_order_T r 0 with
  | inleft (left _) => Lt
  | inleft (right _) => Eq
  | inright _ => Gt
  end.

Definition nneg (x : num) : num :=
  match x with
  | Fin r => Fin (- r)
  | PInf => NInf
  | NInf => PInf
  | NaN => NaN
  end.

Definition nadd (x y : num) : num :=
  match x, y with
  | NaN, _ | _, NaN => NaN
  | Fin a, Fin b => Fin (a + b)
  | PInf, NInf | NInf, PInf => NaN
  | PInf, _ | _, PInf => PInf
  | NInf, _ | _, NInf => NInf
  end.

(** An infinity with the sign of [s], NaN when [s] is zero. *)
Definition signed_inf (s : comparison) : num :=
  match s with
  | Gt => PInf
  | Lt => NInf
  | Eq => NaN
  end.

Definition nmul (x y : num) : num :=
  match x, y with
  | NaN, _ | _, NaN => NaN
  | Fin a, Fin b => Fin (a * b)
  | Fin a, PInf | PInf, Fin a => signed_inf (Rsign a)
  | Fin a, NInf | NInf, Fin a => signed_inf (CompOpp (Rsign a))
  | PInf, PInf | NInf, NInf => PInf
  | PInf, NInf | NInf, PInf => NInf
  end.

Definition ndiv (x y : num) : num :=
  match x, y with
  | NaN, _ | _, NaN => NaN
  | Fin a, Fin b =>
      match Rsign b with
      | Eq => signed_inf (Rsign a)
      | _ => Fin (a / b)
      end
  | Fin _, _ => Fin 0
  | PInf, Fin b => match Rsign b with Lt => NInf | _ => PInf end
  | NInf, Fin b => match Rsign b with Lt => PInf | _ => NInf end
  | _, _ => NaN
  end.

(** [np.exp] *)
Definition nexp (x : num) : num :=
  match x with
  | Fin r => Fin (exp r)
  | PInf => PInf
  | NInf => Fin 0
  | NaN => NaN
  end.

(** [np.log]: [-inf] at 0, NaN below 0. *)
Definition nlog (x : num) : num :=
  match x with
  | Fin r =>
      match Rsign r with
      | Gt => Fin (ln r)
      | Eq => NInf
      | Lt => NaN
      end
  | PInf => PInf
  | NInf => NaN
  | NaN => NaN
  end.

(** [x < y], false when either is NaN. *)
Definition nltb (x y : num) : bool :=
  match x, y with
  | NaN, _ | _, NaN => false
  | Fin a, Fin b => if Rlt_dec a b then true else false
  | NInf, NInf | PInf, _ | _, NInf => false
  | NInf, _ | _, PInf => true
  end.

(** [np.maximum] and [np.minimum]: a NaN operand gives NaN. *)
Definition nmaximum (x y : num) : num :=
  match x, y with
  | NaN, _ | _, NaN => NaN
  | _, _ => if nltb x y then y else x
  end.

Definition nminimum (x y : num) : num :=
  match x, y with
  | NaN, _ | _, NaN => NaN
  | _, _ => if nltb y x then y else x
  end.

(** The logistic function as the source writes it: [1./(1+np.exp(-z))]. *)
Definition sigmoid (z : num) : num :=
  ndiv (Fin 1) (nadd (Fin 1) (nexp (nneg z))).

(** A row of [a @ b]: the sum of the products, from zero. *)
Definition dot (u v : list num) : num :=
  fold_left nadd (zip_with nmul u v) (Fin 0).

(** [a @ b] *)
Definition matmul (a b : ndarray num) : result (ndarray num) :=
  assert ncols a =? nrows b else ValueError ;;
  Ok {| ncols := ncols b;
        data := map (fun r => map (dot r) (data (transpose b))) (data a) |}.

(** ** The batch-size heuristic *)

(** Python's [int(x)] on a float: truncation toward zero. *)
Definition py_int (q : Q) : Z := Z.quot (Qnum q) (Zpos (Qden q)).

(** Python's true division: a zero divisor raises. *)
Definition py_div (a b : Q) : result Q :=
  assert negb (Qeq_bool b 0) else ZeroDivisionError ;;
  Ok (a / b)%Q.

(** [get_batch_size(shape, frac)].  [cuda] lists the total memory, in
    bytes, of the CUDA devices of the machine ([torch.cuda]); without a
    device the memory is taken to be [16e9] bytes.  The floating-point
    arithmetic of the source is done here in exact rationals. *)
Definition get_batch_size (cuda : list positive) (shape : nat * nat) (frac : Q) : result Z :=
  let '(n_users, n_items) := shape in
  let total_memory :=
    match cuda with
    | m :: _ => inject_Z (Zpos m)
    | [] => (16000000000 # 1)%Q
    end in
  per_item <- py_div (total_memory / 8)%Q (inject_Z (Z.of_nat n_items)) ;;
  let max_batch_size := (per_item * frac)%Q in
  b <- py_div (inject_Z (Z.of_nat n_users)) max_batch_size ;;
  let n_batches := (py_int b + 1)%Z in
  r <- py_div (inject_Z (Z.of_nat n_users)) (inject_Z n_batches) ;;
  Ok (Qceiling r).

(** ** Low-rank score matrices *)

(** Row and column labels. *)
Abbreviation label := string.

(** The dataclass [LowRankDataFrame]. *)
Record LowRankDataFrame : Type := mk_LowRankDataFrame {
  ind_logits : ndarray num;
  col_logits : ndarray num;
  index : list label;
  columns : list label;
  act : string
}.

(** What an evaluation returns: an array, a scalar, or Python's [None]. *)
Inductive value : Type :=
| VNone
| VScalar (x : num)
| VArray (m : ndarray num).

(** A key of [__getitem__]: one row index or a list of row indices. *)
Inductive key : Set :=
| KInt (k : Z)
| KList (ks : list Z).

(** [if np.isscalar(key): key = [key]] *)
Definition normalize_key (k : key) : list Z :=
  match k with
  | KInt i => [i]
  | KList ks => ks
  end.

(** [pd.Series(np.arange(n), index=old).reindex(new, fill_value=-1).values]:
    the position of each new label in [old], -1 for a label that is not
    there.  pandas refuses a series whose index has another length than its
    values, and refuses to reindex from an index with duplicate labels. *)
Definition series_reindex (n : nat) (old new : list label) : result (list Z) :=
  assert length old =? n else ValueError ;;
  assert negb (has_dup old) else ValueError ;;
  Ok (map (fun lbl => match find_pos lbl old with
                      | Some p => Z.of_nat p
                      | None => (-1)%Z
                      end) new).

Module LowRank.

Definition check_hidden (l : LowRankDataFrame) : bool :=
  ncols (ind_logits l) =? ncols (col_logits l).

Definition check_index (l : LowRankDataFrame) : bool :=
  nrows (ind_logits l) =? length (index l).

Definition check_columns (l : LowRankDataFrame) : bool :=
  nrows (col_logits l) =? length (columns l).

Definition check_act (l : LowRankDataFrame) : bool :=
  existsb (String.eqb (act l)) ["exp"%string; "sigmoid"%string].

(** The four assertions of [__post_init__], which every construction runs. *)
Definition __post_init__ (l : LowRankDataFrame) : result LowRankDataFrame :=
  assert check_hidden l else AssertionError ;;
  assert check_index l else AssertionError ;;
  assert check_columns l else AssertionError ;;
  assert check_act l else AssertionError ;;
  Ok l.

(** [eval(device)].  On a device the product and the activation are
    Torch's ([z.exp()], [z.sigmoid()]), which compute the same functions;
    an activation that is neither name falls through and returns [None]. *)
Definition eval (device : option string) (self : LowRankDataFrame) : result value :=
  match device with
  | None =>
      z <- matmul (ind_logits self) (transpose (col_logits self)) ;;
      if String.eqb (act self) "exp" then Ok (VArray (amap nexp z))
      else if String.eqb (act self) "sigmoid"
           then Ok (VArray (amap (fun x => ndiv (Fin 1) (nadd (Fin 1) (nexp (nneg x)))) z))
           else Ok VNone
  | Some _ =>
      z <- matmul (ind_logits self) (transpose (col_logits self)) ;;
      if String.eqb (act self) "exp" then Ok (VArray (amap nexp z))
      else if String.eqb (act self) "sigmoid" then Ok (VArray (amap sigmoid z))
           else Ok VNone
  end.

(** The property [shape]. *)
Definition shape (self : LowRankDataFrame) : nat * nat :=
  (nrows (ind_logits self), nrows (col_logits self)).

(** [self[key]]: the rows and the row labels at the indices of the key. *)
Definition __getitem__ (self : LowRankDataFrame) (k : key) : result LowRankDataFrame :=
  let key := normalize_key k in
  rows <- take_rows (ind_logits self) key ;;
  labels <- take EmptyString (index self) key ;;
  __post_init__
    {| ind_logits := rows; col_logits := col_logits self;
       index := labels; columns := columns self; act := act self |}.

(** The property [T]. *)
Definition T (self : LowRankDataFrame) : result LowRankDataFrame :=
  __post_init__
    {| ind_logits := col_logits self; col_logits := ind_logits self;
       index := columns self; columns := index self; act := act self |}.

Definition collate_fn (batch : list LowRankDataFrame) : result LowRankDataFrame :=
  match batch with
  | [] => Err IndexError
  | first :: _ =>
      stacked <- vstack (map ind_logits batch) ;;
      __post_init__
        {| ind_logits := stacked; col_logits := col_logits first;
           index := concat (map index batch); columns := columns first;
           act := act first |}
  end.

(** [reindex] along the rows. *)
Definition reindex_rows (self : LowRankDataFrame) (new_index : list label)
    (fill_value : num) : result LowRankDataFrame :=
  let padded := np_pad (ind_logits self) 1 1 (Fin 0) in
  ind <- setitem padded (-1) (-1) (nlog fill_value) ;;
  let col := np_pad (col_logits self) 0 1 (Fin 1) in
  new_ind <- series_reindex (fst (shape self)) (index self) new_index ;;
  rows <- take_rows ind new_ind ;;
  __post_init__
    {| ind_logits := rows; col_logits := col; index := new_index;
       columns := columns self; act := act self |}.

(** [reindex(index, axis, fill_value)]: along the columns it is the
    reindexing of the transpose. *)
Definition reindex (self : LowRankDataFrame) (new_index : list label) (axis : Z)
    (fill_value : num) : result LowRankDataFrame :=
  if (axis =? 1)%Z
  then t <- T self ;; r <- reindex_rows t new_index fill_value ;; T r
  else reindex_rows self new_index fill_value.

End LowRank.

(** ** Lazy score expressions *)

(** The operators the class builds nodes with: [operator.add],
    [operator.mul] and the clipping closure of [clip]. *)
Inductive opkind : Type :=
| OpAdd
| OpMul
| OpClip (lo hi : num).

(** Anything that can be a child of a node.  [LowRankExpr] and [LazyExpr]
    are the instances of [LazyScoreExpression]; [DataFrame] is a labelled
    pandas table (sparse or not), which [values] strips to a [SpMatrix]
    (SciPy) or an [Array2d] (NumPy). *)
Inductive operand : Type :=
| Scalar (x : num)
| Array2d (m : ndarray num)
| SpMatrix (m : ndarray num)
| DataFrame (idx cols : list label) (sparse : bool) (m : ndarray num)
| LowRankExpr (l : LowRankDataFrame)
| LazyExpr (op : opkind) (children : list operand).

Definition is_scalar (c : operand) : bool :=
  match c with
  | Scalar _ => true
  | _ => false
  end.

Definition is_expression (c : operand) : bool :=
  match c with
  | LowRankExpr _ | LazyExpr _ _ => true
  | _ => false
  end.

(** Element-wise [x op y] on evaluated operands. *)
Definition binary (f : num -> num -> num) (x y : value) : result value :=
  match x, y with
  | VScalar a, VScalar b => Ok (VScalar (f a b))
  | VScalar a, VArray m => Ok (VArray (amap (f a) m))
  | VArray m, VScalar b => Ok (VArray (amap (fun e => f e b) m))
  | VArray m, VArray n => r <- broadcast2 NaN f m n ;; Ok (VArray r)
  | _, _ => Err TypeError
  end.

(** [op( *children )] *)
Definition apply_op (op : opkind) (args : list value) : result value :=
  match op, args with
  | OpAdd, [x; y] => binary nadd x y
  | OpMul, [x; y] => binary nmul x y
  | OpClip lo hi, [x] =>
      match x with
      | VArray m => Ok (VArray (amap (fun e => nminimum (nmaximum e lo) hi) m))
      | _ => Err AttributeError
      end
  | _, _ => Err TypeError
  end.

(** [np.allclose(a, b)] on two non-negative integers. *)
Definition allclose (a b : nat) : bool :=
  Qle_bool (Qabs (inject_Z (Z.of_nat a) - inject_Z (Z.of_nat b)))
           ((1 # 100000000) + (1 # 100000) * inject_Z (Z.of_nat b)).

Module LazyScore.

(** The attribute [shape]: a node has the shape of its first child. *)
Fixpoint shape (c : operand) : result (nat * nat) :=
  match c with
  | Scalar _ => Err AttributeError
  | Array2d m | SpMatrix m | DataFrame _ _ _ m => Ok (array_shape m)
  | LowRankExpr l => Ok (LowRank.shape l)
  | LazyExpr _ children =>
      match children with
      | [] => Err IndexError
      | c0 :: _ => shape c0
      end
  end.

(** [LazyScoreExpression(op, children)]: the constructor reads [index],
    [columns] and [shape] of the first child. *)
Definition __init__ (op : opkind) (children : list operand) : result operand :=
  match children with
  | [] => Err IndexError
  | DataFrame _ _ _ _ :: _ | LowRankExpr _ :: _ | LazyExpr _ _ :: _ =>
      Ok (LazyExpr op children)
  | _ :: _ => Err AttributeError
  end.

(** [_auto_eval(c, device)]; on an expression it is [c.eval(device)]. *)
Fixpoint _auto_eval (device : option string) (c : operand) : result value :=
  match c with
  | DataFrame _ _ _ _ => Err AssertionError
  | LowRankExpr l => LowRank.eval device l
  | LazyExpr op children =>
      args <- mapM (_auto_eval device) children ;;
      apply_op op args
  | Scalar x => Ok (VScalar x)
  | SpMatrix m => Ok (VArray m)
  | Array2d m => Ok (VArray m)
  end.

Definition eval (device : option string) (self : operand) : result value :=
  assert is_expression self else AttributeError ;;
  _auto_eval device self.

(** [_auto_values(c)]; on an expression it is the property [c.values]. *)
Fixpoint _auto_values (c : operand) : result operand :=
  match c with
  | LowRankExpr l => Ok c
  | LazyExpr op children =>
      stripped <- mapM _auto_values children ;;
      __init__ op stripped
  | Scalar _ => Ok c
  | DataFrame _ _ sparse m => Ok (if sparse then SpMatrix m else Array2d m)
  | _ => Err NotImplementedError
  end.

Definition __len__ (self : operand) : result nat :=
  s <- shape self ;; Ok (fst s).


(** The property [batch_size], with the default fraction [0.1]. *)
Definition batch_size (cuda : list positive) (self : operand) : result Z :=
  s <- shape self ;; get_batch_size cuda s (1 # 10).

Definition _check_index_columns (self other : operand) : result unit :=
  if is_scalar other then Ok tt
  else
    s <- shape self ;;
    o <- shape other ;;
    assert allclose (fst s) (fst o) && allclose (snd s) (snd o) else AssertionError ;;
    Ok tt.

Definition __add__ (self other : operand) : result operand :=
  _ <- _check_index_columns self other ;;
  __init__ OpAdd [self; other].

Definition __mul__ (self other : operand) : result operand :=
  _ <- _check_index_columns self other ;;
  __init__ OpMul [self; other].

Definition clip (self : operand) (min max : num) : result operand :=
  __init__ (OpClip min max) [self].

(** The property [T] of an operand that is not a scalar. *)
Fixpoint T (self : operand) : result operand :=
  match self with
  | Scalar _ => Err AttributeError
  | Array2d m => Ok (Array2d (transpose m))
  | SpMatrix m => Ok (SpMatrix (transpose m))
  | DataFrame idx cols sparse m => Ok (DataFrame cols idx sparse (transpose m))
  | LowRankExpr l => t <- LowRank.T l ;; Ok (LowRankExpr t)
  | LazyExpr op children =>
      transposed <- mapM (fun c => if is_scalar c then Ok c else T c) children ;;
      __init__ op transposed
  end.

(** [_auto_getitem(c, key)] for a list of row indices; on an expression
    it is [c[key]]. *)
Fixpoint _auto_getitem (c : operand) (key : list Z) : result operand :=
  match c with
  | DataFrame _ _ _ _ => Err AssertionError
  | Scalar _ => Ok c
  | Array2d m => r <- take_rows m key ;; Ok (Array2d r)
  | SpMatrix m => r <- take_rows m key ;; Ok (SpMatrix r)
  | LowRankExpr l => r <- LowRank.__getitem__ l (KList key) ;; Ok (LowRankExpr r)
  | LazyExpr op children =>
      sliced <- mapM (fun c => _auto_getitem c key) children ;;
      __init__ op sliced
  end.

Definition __getitem__ (self : operand) (k : key) : result operand :=
  assert is_expression self else TypeError ;;
  _auto_getitem self (normalize_key k).

Definition as_lowrank (c : operand) : result LowRankDataFrame :=
  match c with
  | LowRankExpr l => Ok l
  | _ => Err AttributeError
  end.

(** The attribute [children], which only a node of the base class has. *)
Definition children_of (c : operand) : result (list operand) :=
  match c with
  | LazyExpr _ children => Ok children
  | _ => Err AttributeError
  end.

Definition as_array (c : operand) : result (ndarray num) :=
  match c with
  | Array2d m => Ok m
  | _ => Err TypeError
  end.

Definition as_sparse (c : operand) : result (ndarray num) :=
  match c with
  | SpMatrix m => Ok m
  | _ => Err TypeError
  end.

(** [_auto_collate(c, D)]: [D] holds, for each element of the batch, the
    child at the position of [c], and [c] is the one of the first element
    ([D[0]]).  The elements of a batch are slices of one expression, so
    they have the kind of [c]; an element of another kind is reported as
    an [AttributeError] (expressions) or a [TypeError] (arrays). *)
Fixpoint _auto_collate (c : operand) (D : list operand) : result operand :=
  match c with
  | DataFrame _ _ _ _ => Err AssertionError
  | LowRankExpr _ =>
      batch <- mapM as_lowrank D ;;
      l <- LowRank.collate_fn batch ;;
      Ok (LowRankExpr l)
  | LazyExpr op children =>
      kids <- mapM children_of D ;;
      collated <- zipM _auto_collate children (zip_star kids) ;;
      __init__ op collated
  | Scalar _ =>
      match D with
      | [] => Err IndexError
      | d :: _ => Ok d
      end
  | SpMatrix _ => ms <- mapM as_sparse D ;; r <- vstack ms ;; Ok (SpMatrix r)
  | Array2d _ => ms <- mapM as_array D ;; r <- vstack ms ;; Ok (Array2d r)
  end.

(** [cls.collate_fn(batch)], [cls] being the class of [self]. *)
Definition collate_fn (self : operand) (batch : list operand) : result operand :=
  match self with
  | LowRankExpr _ =>
      ls <- mapM as_lowrank batch ;;
      l <- LowRank.collate_fn ls ;;
      Ok (LowRankExpr l)
  | LazyExpr _ _ =>
      match batch with
      | [] => Err IndexError
      | first :: _ =>
          match first with
          | LazyExpr _ _ => _auto_collate first batch
          | _ => Err AttributeError
          end
      end
  | _ => Err AttributeError
  end.

End LazyScore.

(** ** The operators [+] and [*]

    Python looks [a + b] up on the type of [a].  [LazyScoreExpression]
    defines [__add__] and [__mul__] and no reflected operator, so the
    class builds a node only for an expression on the left.  A number on
    the left raises [TypeError]; an array or a table on the left is
    handled by its own library and builds no node either, which is
    reported here as the same error. *)

Definition py_add (a b : operand) : result operand :=
  assert is_expression a else TypeError ;;
  LazyScore.__add__ a b.

Definition py_mul (a b : operand) : result operand :=
  assert is_expression a else TypeError ;;
  LazyScore.__mul__ a b.

(** ** Batched aggregation *)

(** The index batches a [DataLoader] draws from a sequential sampler
    ([torch.utils.data.BatchSampler], keeping the last, shorter batch):
    [batch] is the batch being filled. *)
Fixpoint batch_sampler (batch_size : nat) (batch : list Z) (sampler : list Z) : list (list Z) :=
  match sampler with
  | [] =>
      match batch with
      | [] => []
      | _ => [batch]
      end
  | idx :: rest =>
      let batch' := batch ++ [idx] in
      if length batch' =? batch_size
      then batch' :: batch_sampler batch_size [] rest
      else batch_sampler batch_size batch' rest
  end.

(** [DataLoader(S, batch_size, ...)]: the loader refuses a batch size that
    is not positive; iterating it goes through [range(len(S))]. *)
Definition DataLoader (S : operand) (batch_size : Z) : result (list (list Z)) :=
  assert (0 <? batch_size)%Z else ValueError ;;
  n <- LazyScore.__len__ S ;;
  Ok (batch_sampler (Z.to_nat batch_size) [] (map Z.of_nat (seq 0 n))).

Section ScoreOp.
(** The reduction named [op]: [f] is its binary operation, which the
    array method [getattr(val, op)] folds over all entries and which
    [getattr(builtins, op)] applies to two batch results. *)
Variable f : num -> num -> num.
Variable device : option string.

Definition reduce_value (val : value) : result num :=
  match val with
  | VArray m => reduce_all f m
  | _ => Err AttributeError
  end.

(** One turn of the loop of [score_op], on the batch of row indices [idxs]. *)
Definition score_step (S : operand) (out : option num) (idxs : list Z) : result (option num) :=
  items <- mapM (fun i => LazyScore.__getitem__ S (KInt i)) idxs ;;
  batch <- LazyScore.collate_fn S items ;;
  val <- LazyScore.eval device batch ;;
  new <- reduce_value val ;;
  Ok (Some (match out with
            | None => new
            | Some o => f o new
            end)).

Fixpoint score_loop (S : operand) (out : option num) (batches : list (list Z)) : result (option num) :=
  match batches with
  | [] => Ok out
  | idxs :: rest => out' <- score_step S out idxs ;; score_loop S out' rest
  end.

(** [score_op] with the batch size given. *)
Definition score_op_sized (batch_size : Z) (S : operand) : result (option num) :=
  batches <- DataLoader S batch_size ;;
  score_loop S None batches.

(** [score_op(S, op, device)]; the result is [None] when the loop body
    never ran. *)
Definition score_op (cuda : list positive) (S : operand) : result (option num) :=
  bs <- LazyScore.batch_size cuda S ;;
  score_op_sized bs S.
End ScoreOp.

(** ** Well-formed values

    What the constructors and NumPy guarantee of the values the operations
    receive. *)

(** A low-rank matrix that passed [__post_init__], over rectangular arrays. *)
Definition wf_lowrank (l : LowRankDataFrame) : bool :=
  rect (ind_logits l) && rect (col_logits l)
  && LowRank.check_hidden l && LowRank.check_index l
  && LowRank.check_columns l && LowRank.check_act l.

Definition same_shape (a b : operand) : bool :=
  match LazyScore.shape a, LazyScore.shape b with
  | Ok s, Ok s' => (fst s =? fst s') && (snd s =? snd s')
  | _, _ => false
  end.

(** An operand ready for evaluation: tables stripped of their labels,
    and nodes as [__add__], [__mul__] and [clip] build them, an
    expression first and then a scalar or an operand of the same shape. *)
Fixpoint wf_operand (c : operand) : bool :=
  match c with
  | Scalar _ => true
  | Array2d m | SpMatrix m => rect m
  | DataFrame _ _ _ _ => false
  | LowRankExpr l => wf_lowrank l
  | LazyExpr op children =>
      match op, children with
      | OpAdd, [a; b] | OpMul, [a; b] =>
          is_expression a && wf_operand a && wf_operand b
          && (is_scalar b || same_shape a b)
      | OpClip _ _, [a] => is_expression a && wf_operand a
      | _, _ => false
      end
  end.

Definition wf_expression (c : operand) : bool :=
  is_expression c && wf_operand c.

(** ** The batch size as the specification words it

    [ceil(n_rows / n_batches)] with
    [n_batches = floor(n_rows / max_rows_per_batch) + 1] and
    [max_rows_per_batch = total_memory / 8 / n_cols * fraction]. *)

Definition reported_total_memory (cuda : list positive) : Q :=
  match cuda with
  | m :: _ => inject_Z (Zpos m)
  | [] => 16000000000
  end.

Definition recommended_batch_size (total_memory : Q) (n_rows n_cols : nat) (fraction : Q) : Z :=
  let max_rows_per_batch := (total_memory / 8 / inject_Z (Z.of_nat n_cols) * fraction)%Q in
  let n_batches := (Qfloor (inject_Z (Z.of_nat n_rows) / max_rows_per_batch) + 1)%Z in
  Qceiling (inject_Z (Z.of_nat n_rows) / inject_Z n_batches).

(** ** Entries and activations, for stating what an evaluation holds *)

(** The entry at row [i] and column [j]. *)
Definition entry (m : ndarray num) (i j : nat) : num :=
  nth j (nth i (data m) []) NaN.

(** The entry of an evaluated operand that meets the entry [(i, j)] of the
    other operand: a scalar is broadcast. *)
Definition value_entry (v : value) (i j : nat) : num :=
  match v with
  | VArray m => entry m i j
  | VScalar x => x
  | VNone => NaN
  end.

(** The entry [(i, j)] of the product of [a] and the transpose of [b]:
    the sum over [k] of [a[i,k] * b[j,k]]. *)
Definition product_entry (a b : ndarray num) (i j : nat) : num :=
  fold_left nadd
    (map (fun k => nmul (entry a i k) (entry b j k)) (seq 0 (ncols a)))
    (Fin 0).

(** The activation a name stands for. *)
Definition activation (name : string) (z : num) : num :=
  if String.eqb name "exp" then nexp z else sigmoid z.

(** The dense table a low-rank matrix stands for, row by row. *)
Definition dense_of (l : LowRankDataFrame) : ndarray num :=
  {| ncols := nrows (col_logits l);
     data := map (fun r => map (fun c => activation (act l) (dot r c))
                               (data (col_logits l)))
                 (data (ind_logits l)) |}.

(** The scenario of the specification: row factors [[1,0],[0,1]], column
    factors [[1,1],[1,0]], activation [exp], rows [a], [b]. *)
Definition scenario : LowRankDataFrame :=
  {| ind_logits := {| ncols := 2; data := [[Fin 1; Fin 0]; [Fin 0; Fin 1]] |};
     col_logits := {| ncols := 2; data := [[Fin 1; Fin 1]; [Fin 1; Fin 0]] |};
     index := ["a"%string; "b"%string];
     columns := ["x"%string; "y"%string];
     act := "exp" |}.

(** A sum of the scenario and a dense array. *)
Definition scenario_sum : operand :=
  LazyExpr OpAdd
    [LowRankExpr scenario;
     Array2d {| ncols := 2; data := [[Fin 1; Fin 2]; [Fin 3; Fin 4]] |}].

(** ** Rows at given positions, for stating what slicing returns *)

Definition rows_at {A : Type} (m : ndarray A) (idx : list nat) : ndarray A :=
  {| ncols := ncols m; data := map (fun i => nth i (data m) []) idx |}.

Definition lowrank_rows_at (l : LowRankDataFrame) (idx : list nat) : LowRankDataFrame :=
  {| ind_logits := rows_at (ind_logits l) idx;
     col_logits := col_logits l;
     index := map (fun i => nth i (index l) EmptyString) idx;
     columns := columns l;
     act := act l |}.

Fixpoint operand_rows_at (c : operand) (idx : list nat) : operand :=
  match c with
  | Scalar _ | DataFrame _ _ _ _ => c
  | Array2d m => Array2d (rows_at m idx)
  | SpMatrix m => SpMatrix (rows_at m idx)
  | LowRankExpr l => LowRankExpr (lowrank_rows_at l idx)
  | LazyExpr op children =>
      LazyExpr op (map (fun c' => operand_rows_at c' idx) children)
  end.

Definition value_rows_at (v : value) (idx : list nat) : value :=
  match v with
  | VArray m => VArray (rows_at m idx)
  | _ => v
  end.

(** Two arrays of one shape combined entry by entry. *)
Definition zip_arrays (f : num -> num -> num) (m n : ndarray num) : ndarray num :=
  {| ncols := ncols m; data := zip_with (zip_with f) (data m) (data n) |}.

(** ** Reindexing, for stating what it returns *)

(** The row factors [reindex] selects for a label: the original row with
    a 0 appended, or the synthetic row that carries [log(fill_value)]. *)
Definition reindexed_row (l : LowRankDataFrame) (fill : num) (lbl : label) : list num :=
  match find_pos lbl (index l) with
  | Some q => nth q (data (ind_logits l)) [] ++ [Fin 0]
  | None => repeat (Fin 0) (ncols (ind_logits l)) ++ [nlog fill]
  end.

Definition reindexed (l : LowRankDataFrame) (new_index : list label) (fill : num)
    : LowRankDataFrame :=
  {| ind_logits := {| ncols := ncols (ind_logits l) + 1;
                      data := map (reindexed_row l fill) new_index |};
     col_logits := np_pad (col_logits l) 0 1 (Fin 1);
     index := new_index;
     columns := columns l;
     act := act l |}.




(** ** More scenarios *)

(** Seven rows, three columns, hidden rank two. *)
Definition seven_by_three : LowRankDataFrame :=
  {| ind_logits :=
       {| ncols := 2;
          data := [[Fin 1; Fin 0]; [Fin 0; Fin 1]; [Fin 1; Fin 1]; [Fin 2; Fin 0];
                   [Fin 0; Fin 2]; [Fin 2; Fin 1]; [Fin 1; Fin 2]] |};
     col_logits := {| ncols := 2; data := [[Fin 1; Fin 0]; [Fin 0; Fin 1]; [Fin 1; Fin 1]] |};
     index := ["u0"; "u1"; "u2"; "u3"; "u4"; "u5"; "u6"]%string;
     columns := ["i0"; "i1"; "i2"]%string;
     act := "sigmoid" |}.

(** One row and one column, with the given factor of the column, labels
    of the rows and activation. *)
Definition one_by_one (col : num) (labels : list label) (name : string) : LowRankDataFrame :=
  {| ind_logits := {| ncols := 1; data := map (fun _ => [Fin 0]) labels |};
     col_logits := {| ncols := 1; data := [[col]] |};
     index := labels;
     columns := ["x"%string];
     act := name |}.

(** ** Evaluated operands, for stating what an evaluation returns *)

(** What a well-formed operand evaluates to: a scalar to a scalar, another
    operand to a rectangular array of its shape. *)
Definition evaluates (c : operand) (v : value) : Prop :=
  match v with
  | VScalar _ => is_scalar c = true
  | VArray m =>
      is_scalar c = false /\ rect m = true /\ LazyScore.shape c = Ok (array_shape m)
  | VNone => False
  end.

(** The binary function of [operator.add] and [operator.mul]. *)
Definition op_fun (op : opkind) : num -> num -> num :=
  match op with
  | OpMul => nmul
  | _ => nadd
  end.

(** An array combined entry by entry with a scalar or with an array of
    its shape. *)
Definition combine (f : num -> num -> num) (m : ndarray num) (v : value) : ndarray num :=
  match v with
  | VScalar x => amap (fun e => f e x) m
  | VArray n => zip_arrays f m n
  | VNone => m
  end.

(** A second operand that fits an array [m]: a scalar, or a rectangular
    array of the shape of [m]. *)
Definition fits (m : ndarray num) (v : value) : Prop :=
  match v with
  | VScalar _ => True
  | VArray n => rect n = true /\ array_shape n = array_shape m
  | VNone => False
  end.

(** The scenario without its rows. *)
Definition no_rows : LowRankDataFrame :=
  {| ind_logits := {| ncols := 2; data := [] |};
     col_logits := col_logits scenario;
     index := [];
     columns := columns scenario;
     act := "exp" |}.


(** ** Definitions for further properties *)

(** A number that is not negative: a real from 0 on, [+inf], or NaN. *)
Definition nonnegative (x : num) : Prop :=
  match x with
  | Fin r => (0 <= r)%R
  | PInf | NaN => True
  | NInf => False
  end.

(** A number that is not above 1. *)
Definition at_most_one (x : num) : Prop :=
  match x with
  | Fin r => (r <= 1)%R
  | NInf | NaN => True
  | PInf => False
  end.

(** The transposed operand, for stating what [T] returns. *)
Definition transposed_lowrank (l : LowRankDataFrame) : LowRankDataFrame :=
  {| ind_logits := col_logits l; col_logits := ind_logits l;
     index := columns l; columns := index l; act := act l |}.

Fixpoint operand_transposed (c : operand) : operand :=
  match c with
  | Scalar _ => c
  | Array2d m => Array2d (transpose m)
  | SpMatrix m => SpMatrix (transpose m)
  | DataFrame idx cols sparse m => DataFrame cols idx sparse (transpose m)
  | LowRankExpr l => LowRankExpr (transposed_lowrank l)
  | LazyExpr op children => LazyExpr op (map operand_transposed children)
  end.

Definition value_transposed (v : value) : value :=
  match v with
  | VArray m => VArray (transpose m)
  | _ => v
  end.

(** A number left by clipping to the reals from [lo] to [hi]: a real
    in that range, or NaN. *)
Definition clipped (lo hi : R) (x : num) : Prop :=
  match x with
  | Fin r => (lo <= r <= hi)%R
  | NaN => True
  | PInf | NInf => False
  end.

(** ** Expressions over labelled tables, before [values] *)

(** An expression as the operators build it from low-rank matrices,
    labelled tables and scalars. *)
Fixpoint wf_labelled (c : operand) : bool :=
  match c with
  | Scalar _ => true
  | Array2d _ | SpMatrix _ => false
  | DataFrame idx cols _ m => rect m
  | LowRankExpr l => wf_lowrank l
  | LazyExpr op children =>
      match op, children with
      | OpAdd, [a; b] | OpMul, [a; b] =>
          is_expression a && wf_labelled a && wf_labelled b
          && (is_scalar b || same_shape a b)
      | OpClip _ _, [a] => is_expression a && wf_labelled a
      | _, _ => false
      end
  end.

(** The operand without the labels of its tables, for stating what
    [values] returns. *)
Fixpoint stripped (c : operand) : operand :=
  match c with
  | DataFrame _ _ sparse m => if sparse then SpMatrix m else Array2d m
  | LazyExpr op children => LazyExpr op (map stripped children)
  | _ => c
  end.

Fixpoint has_table (c : operand) : bool :=
  match c with
  | DataFrame _ _ _ _ => true
  | LazyExpr _ children => existsb has_table children
  | _ => false
  end.

(** The scenario plus a labelled table. *)
Definition labelled_sum : operand :=
  LazyExpr OpAdd
    [LowRankExpr scenario;
     DataFrame ["a"; "b"]%string ["x"; "y"]%string false
       {| ncols := 2; data := [[Fin 1; Fin 2]; [Fin 3; Fin 4]] |}].

(** ** Sparse tables *)

(** [df_to_coo(df)]: the entries of a sparse table as a SciPy matrix.
    Both branches return the matrix of the entries (the second one numbers
    the labels of a copy first); a table that is not sparse, and anything
    that is not a table, has no [sparse] accessor. *)
Definition df_to_coo (df : operand) : result (ndarray num) :=
  match df with
  | DataFrame _ _ true m => Ok m
  | _ => Err AttributeError
  end.

(** [m[i, :] = v] *)
Definition setrow {A : Type} (m : ndarray A) (i : Z) (v : A) : result (ndarray A) :=
  r <- np_index (nrows m) i ;;
  Ok {| ncols := ncols m; data := set_nth r (repeat v (ncols m)) (data m) |}.

(** [pd.DataFrame.sparse.from_spmatrix(data, index, columns)]: pandas
    refuses labels that do not have the lengths of the matrix. *)
Definition from_spmatrix (m : ndarray num) (idx cols : list label) : result operand :=
  assert (length idx =? nrows m) && (length cols =? ncols m) else ValueError ;;
  Ok (DataFrame idx cols true m).

(** [(df.index, df.columns)] *)
Definition df_labels (df : operand) : result (list label * list label) :=
  match df with
  | DataFrame idx cols _ _ => Ok (idx, cols)
  | LowRankExpr l => Ok (index l, columns l)
  | _ => Err AttributeError
  end.

(** [pd_sparse_reindex(df, index, 0, fill_value)]: the matrix gets one
    more row, filled with [fill_value], which the index -1 of a label
    that is not in the table selects. *)
Definition pd_sparse_reindex_rows (df : operand) (new_index : list label)
    (fill_value : num) : result operand :=
  coo <- df_to_coo df ;;
  csr <- setrow (np_pad coo 1 0 (Fin 0)) (-1) fill_value ;;
  labels <- df_labels df ;;
  new_ind <- series_reindex (nrows coo) (fst labels) new_index ;;
  rows <- take_rows csr new_ind ;;
  from_spmatrix rows new_index (snd labels).

(** [pd_sparse_reindex(df, index, axis, fill_value)]: along the columns it
    is the reindexing of the transposed table, transposed back. *)
Definition pd_sparse_reindex (df : operand) (new_index : list label) (axis : Z)
    (fill_value : num) : result operand :=
  if (axis =? 1)%Z
  then t <- LazyScore.T df ;;
       r <- pd_sparse_reindex_rows t new_index fill_value ;;
       LazyScore.T r
  else pd_sparse_reindex_rows df new_index fill_value.

(** The row of a reindexed table at a label: the row the label had, or a
    row of [fill]. *)
Definition table_row (idx : list label) (m : ndarray num) (fill : num) (lbl : label)
    : list num :=
  match find_pos lbl idx with
  | Some q => nth q (data m) []
  | None => repeat fill (ncols m)
  end.

Definition table_rows (idx : list label) (m : ndarray num) (fill : num)
    (new_index : list label) : ndarray num :=
  {| ncols := ncols m; data := map (table_row idx m fill) new_index |}.

(** A sparse table of two rows and three columns. *)
Definition sparse_table : operand :=
  DataFrame ["a"; "b"]%string ["x"; "y"; "z"]%string true
    {| ncols := 3; data := [[Fin 1; Fin 0; Fin 2]; [Fin 0; Fin 3; Fin 0]] |}.

(** * Properties *)

Unset Implicit Arguments.

(** ** Exceptions and lists *)

Lemma bind_Ok {A B : Type} (c : result A) (k : A -> result B) (b : B) :
  bind c k = Ok b -> exists a, c = Ok a /\ k a = Ok b.
Proof.
  destruct c as [a|e]; simpl; intro H; [exists a; auto | discriminate].
Qed.

(** ** The batch-size heuristic *)

Lemma py_div_nonzero (a b : Q) : ~ (b == 0)%Q -> py_div a b = Ok (a / b)%Q.
Proof.
  intro Hb. unfold py_div.
  destruct (Qeq_bool b 0) eqn:E; [|reflexivity].
  apply Qeq_bool_iff in E. contradiction.
Qed.

Lemma py_div_zero (a b : Q) : (b == 0)%Q -> py_div a b = Err ZeroDivisionError.
Proof.
  intro Hb. unfold py_div. apply Qeq_bool_iff in Hb. now rewrite Hb.
Qed.

(** On a non-negative number [int] is the floor. *)
Lemma py_int_floor (q : Q) : (0 <= q)%Q -> py_int q = Qfloor q.
Proof.
  destruct q as [n d]. unfold Qle, py_int, Qfloor. simpl.
  intro H. apply Z.quot_div_nonneg; lia.
Qed.

Lemma reported_total_memory_pos (cuda : list positive) : (0 < reported_total_memory cuda)%Q.
Proof.
  destruct cuda as [|m ?]; simpl; reflexivity.
Qed.

Lemma inject_nat_nonneg (n : nat) : (0 <= inject_Z (Z.of_nat n))%Q.
Proof.
  unfold Qle. simpl. lia.
Qed.

Lemma inject_nat_pos (n : nat) : (1 <= n)%nat -> (0 < inject_Z (Z.of_nat n))%Q.
Proof.
  intro H. unfold Qlt. simpl. lia.
Qed.

Lemma max_rows_pos (cuda : list positive) (n_cols : nat) (frac : Q) :
  (1 <= n_cols)%nat -> (0 < frac)%Q ->
  (0 < reported_total_memory cuda / 8 / inject_Z (Z.of_nat n_cols) * frac)%Q.
Proof.
  intros Hc Hf. rewrite <- (Qmult_0_l frac). apply Qmult_lt_compat_r; [exact Hf|].
  apply Qlt_shift_div_l; [now apply inject_nat_pos|]. rewrite Qmult_0_l.
  apply Qlt_shift_div_l; [reflexivity|]. rewrite Qmult_0_l.
  apply reported_total_memory_pos.
Qed.

Lemma rows_per_max_nonneg (n_rows : nat) (max : Q) :
  (0 < max)%Q -> (0 <= inject_Z (Z.of_nat n_rows) / max)%Q.
Proof.
  intro H. apply Qle_shift_div_l; [exact H|]. rewrite Qmult_0_l.
  apply inject_nat_nonneg.
Qed.

Lemma py_int_nonneg (q : Q) : (0 <= q)%Q -> (0 <= py_int q)%Z.
Proof.
  intro H. rewrite (py_int_floor q H).
  apply (Qfloor_resp_le 0 q H).
Qed.

(** With a column and a positive fraction no division of the heuristic
    raises. *)
Lemma get_batch_size_steps (cuda : list positive) (n_rows n_cols : nat) (frac : Q) :
  (1 <= n_cols)%nat ->
  (0 < frac)%Q ->
  get_batch_size cuda (n_rows, n_cols) frac
  = Ok (Qceiling
          (inject_Z (Z.of_nat n_rows)
           / inject_Z
               (py_int (inject_Z (Z.of_nat n_rows)
                        / (reported_total_memory cuda / 8
                           / inject_Z (Z.of_nat n_cols) * frac)) + 1))).
Proof.
  intros Hc Hf.
  pose proof (inject_nat_pos _ Hc) as Hi.
  pose proof (max_rows_pos cuda n_cols frac Hc Hf) as Hmax.
  pose proof (py_int_nonneg _ (rows_per_max_nonneg n_rows _ Hmax)) as Hb.
  unfold get_batch_size.
  change (match cuda with
          | [] => (16000000000 # 1)%Q
          | m :: _ => inject_Z (Z.pos m)
          end) with (reported_total_memory cuda).
  rewrite py_div_nonzero by (intro E; rewrite E in Hi; discriminate).
  cbn [bind].
  rewrite py_div_nonzero by (intro E; rewrite E in Hmax; discriminate).
  cbn [bind].
  rewrite py_div_nonzero; [reflexivity|].
  intro E. unfold Qeq in E. cbn [inject_Z Qnum Qden] in E. lia.
Qed.




(** Below zero [int] rounds toward zero and the floor does not. *)
Example get_batch_size_negative_fraction :
  get_batch_size [] (5%nat, 1%nat) (-1 # 1000000000) = Ok (-5)%Z
  /\ recommended_batch_size (reported_total_memory []) 5 1 (-1 # 1000000000) = (-2)%Z.
Proof.
  split; reflexivity.
Qed.

Example get_batch_size_no_rows :
  get_batch_size [] (0%nat, 4%nat) (1 # 10) = Ok 0%Z.
Proof.
  reflexivity.
Qed.

Example get_batch_size_no_column :
  get_batch_size [] (4%nat, 0%nat) (1 # 10) = Err ZeroDivisionError.
Proof.
  reflexivity.
Qed.

(** ** Arrays *)

Section ArrayFacts.
Context {A : Type}.
Implicit Types (m : ndarray A) (rows : list (list A)).

Lemma rect_Forall m : rect m = true <-> Forall (fun r => length r = ncols m) (data m).
Proof.
  unfold rect. rewrite forallb_forall, Forall_forall.
  split; intros H r Hr; specialize (H r Hr); now apply Nat.eqb_eq.
Qed.

Lemma ndarray_eq m m' : ncols m = ncols m' -> data m = data m' -> m = m'.
Proof.
  destruct m, m'; simpl; intros; subst; reflexivity.
Qed.

Lemma zip_with_length {B C : Type} (g : A -> B -> C) (l : list A) (l' : list B) :
  length l = length l' -> length (zip_with g l l') = length l.
Proof.
  revert l'; induction l as [|x l IH]; intros [|y l'] H; simpl in *;
    try discriminate; auto.
Qed.

Lemma columns_of_length (w : nat) rows :
  Forall (fun r => length r = w) rows -> length (columns_of w rows) = w.
Proof.
  induction 1 as [|r rs Hr _ IH]; simpl.
  - apply repeat_length.
  - rewrite zip_with_length; congruence.
Qed.

Lemma columns_of_heights (w : nat) rows :
  Forall (fun c => length c = length rows) (columns_of w rows).
Proof.
  induction rows as [|r rs IH]; simpl.
  - apply Forall_forall. intros c Hc. now apply repeat_spec in Hc; subst.
  - revert IH. generalize (columns_of w rs) as cs.
    induction r as [|x r IHr]; intros [|c cs] Hcs; simpl; constructor.
    + simpl. f_equal. now inversion Hcs.
    + apply IHr. now inversion Hcs.
Qed.

Lemma columns_of_zip_cons (n : nat) (r : list A) (cs : list (list A)) :
  length r = length cs ->
  columns_of (S n) (zip_with cons r cs) = r :: columns_of n cs.
Proof.
  revert cs; induction r as [|x r IH]; intros [|c cs] H; simpl in *;
    try discriminate; [reflexivity|].
  rewrite IH by congruence. reflexivity.
Qed.

Lemma columns_of_involutive (w : nat) rows :
  Forall (fun r => length r = w) rows ->
  columns_of (length rows) (columns_of w rows) = rows.
Proof.
  induction 1 as [|r rs Hr Hrs IH]; simpl.
  - destruct w; reflexivity.
  - rewrite columns_of_zip_cons.
    + now rewrite IH.
    + now rewrite columns_of_length.
Qed.

Lemma transpose_rect m : rect (transpose m) = true.
Proof.
  apply rect_Forall. simpl. apply columns_of_heights.
Qed.

Lemma transpose_nrows m : rect m = true -> nrows (transpose m) = ncols m.
Proof.
  intro H. apply rect_Forall in H. unfold nrows; simpl.
  now apply columns_of_length.
Qed.

Lemma transpose_involutive m : rect m = true -> transpose (transpose m) = m.
Proof.
  intro H. pose proof (transpose_nrows m H) as Hn. apply rect_Forall in H.
  apply ndarray_eq.
  - exact Hn.
  - simpl. fold (nrows m). unfold nrows at 1.
    now apply columns_of_involutive.
Qed.
End ArrayFacts.

(** ** Lists and indices *)

Lemma nth_map_lt {A B : Type} (g : A -> B) (l : list A) (i : nat) (d : A) (d' : B) :
  (i < length l)%nat -> nth i (map g l) d' = g (nth i l d).
Proof.
  intro H. rewrite (nth_indep _ d' (g d)) by now rewrite length_map.
  apply map_nth.
Qed.

Lemma zip_with_seq {A B C : Type} (g : A -> B -> C) (u : list A) (v : list B) (d : A) (d' : B) :
  length u = length v ->
  zip_with g u v = map (fun k => g (nth k u d) (nth k v d')) (seq 0 (length u)).
Proof.
  revert v; induction u as [|x u IH]; intros [|y v] H; simpl in *;
    try discriminate; [reflexivity|].
  f_equal. rewrite <- seq_shift, map_map. apply IH. congruence.
Qed.

Lemma mapM_Ok_map {A B : Type} (g : A -> result B) (h : A -> B) (l : list A) :
  (forall x, In x l -> g x = Ok (h x)) -> mapM g l = Ok (map h l).
Proof.
  induction l as [|x l IH]; intro H; simpl; [reflexivity|].
  rewrite (H x) by now left. simpl.
  rewrite IH by (intros; apply H; now right). reflexivity.
Qed.

Lemma mapM_map {A B C : Type} (g : B -> result C) (h : A -> B) (l : list A) :
  mapM g (map h l) = mapM (fun x => g (h x)) l.
Proof.
  induction l as [|x l IH]; simpl; [reflexivity|]. now rewrite IH.
Qed.

Lemma mapM_length {A B : Type} (g : A -> result B) (l : list A) (r : list B) :
  mapM g l = Ok r -> length r = length l.
Proof.
  revert r; induction l as [|x l IH]; simpl; intros r H.
  - now inversion H.
  - destruct (g x); [|discriminate]. simpl in H.
    destruct (mapM g l) as [ys|]; [|discriminate]. simpl in H.
    inversion H; subst. simpl. f_equal. now apply IH.
Qed.

Lemma np_index_nat (n i : nat) : (i < n)%nat -> np_index n (Z.of_nat i) = Ok i.
Proof.
  intro H. unfold np_index.
  replace ((0 <=? Z.of_nat i)%Z && (Z.of_nat i <? Z.of_nat n)%Z) with true.
  - now rewrite Nat2Z.id.
  - symmetry. apply andb_true_iff. split; [apply Z.leb_le | apply Z.ltb_lt]; lia.
Qed.

Lemma np_index_last (n : nat) : (0 < n)%nat -> np_index n (-1) = Ok (n - 1)%nat.
Proof.
  intro H. unfold np_index.
  change ((0 <=? -1)%Z && (-1 <? Z.of_nat n)%Z) with false. cbv iota.
  assert (E : ((- Z.of_nat n <=? -1)%Z && (-1 <? 0)%Z) = true).
  { apply andb_true_iff. split; [apply Z.leb_le; lia | reflexivity]. }
  rewrite E. f_equal. lia.
Qed.

Lemma np_index_lt (n : nat) (k : Z) (i : nat) : np_index n k = Ok i -> (i < n)%nat.
Proof.
  unfold np_index.
  destruct ((0 <=? k)%Z && (k <? Z.of_nat n)%Z) eqn:E.
  - apply andb_true_iff in E as [E1 E2]. apply Z.leb_le in E1. apply Z.ltb_lt in E2.
    intro H; inversion H; subst. lia.
  - destruct ((- Z.of_nat n <=? k)%Z && (k <? 0)%Z) eqn:E'; [|discriminate].
    apply andb_true_iff in E' as [E1 E2]. apply Z.leb_le in E1. apply Z.ltb_lt in E2.
    intro H; inversion H; subst. lia.
Qed.

(** ** Low-rank matrices: construction and evaluation *)

Lemma wf_lowrank_iff (l : LowRankDataFrame) :
  wf_lowrank l = true <->
  rect (ind_logits l) = true /\ rect (col_logits l) = true
  /\ LowRank.check_hidden l = true /\ LowRank.check_index l = true
  /\ LowRank.check_columns l = true /\ LowRank.check_act l = true.
Proof.
  unfold wf_lowrank. rewrite !andb_true_iff. tauto.
Qed.

Lemma post_init_Ok (l : LowRankDataFrame) :
  LowRank.check_hidden l = true -> LowRank.check_index l = true ->
  LowRank.check_columns l = true -> LowRank.check_act l = true ->
  LowRank.__post_init__ l = Ok l.
Proof.
  intros H1 H2 H3 H4. unfold LowRank.__post_init__.
  now rewrite H1, H2, H3, H4.
Qed.

Lemma post_init_inv (l l' : LowRankDataFrame) :
  LowRank.__post_init__ l = Ok l' ->
  l' = l /\ LowRank.check_hidden l = true /\ LowRank.check_index l = true
  /\ LowRank.check_columns l = true /\ LowRank.check_act l = true.
Proof.
  unfold LowRank.__post_init__.
  destruct (LowRank.check_hidden l), (LowRank.check_index l),
    (LowRank.check_columns l), (LowRank.check_act l); try discriminate.
  intro H; inversion H; auto.
Qed.

Lemma check_act_cases (l : LowRankDataFrame) :
  LowRank.check_act l = true -> act l = "exp"%string \/ act l = "sigmoid"%string.
Proof.
  unfold LowRank.check_act. simpl. rewrite orb_false_r, orb_true_iff.
  intros [H|H]; apply String.eqb_eq in H; auto.
Qed.

Lemma matmul_transposed (a b : ndarray num) :
  rect b = true -> ncols a = ncols b ->
  matmul a (transpose b)
  = Ok {| ncols := nrows b; data := map (fun r => map (dot r) (data b)) (data a) |}.
Proof.
  intros Hb Hk. unfold matmul.
  rewrite (transpose_nrows b Hb), Hk, Nat.eqb_refl.
  now rewrite (transpose_involutive b Hb).
Qed.

Lemma lowrank_eval (device : option string) (l : LowRankDataFrame) :
  wf_lowrank l = true -> LowRank.eval device l = Ok (VArray (dense_of l)).
Proof.
  intro H. apply wf_lowrank_iff in H as (_ & Hc & Hk & _ & _ & Ha).
  apply Nat.eqb_eq in Hk.
  assert (E : forall g, (forall z, g z = activation (act l) z) ->
            amap g {| ncols := nrows (col_logits l);
                      data := map (fun r => map (dot r) (data (col_logits l)))
                                  (data (ind_logits l)) |} = dense_of l).
  { intros g Hg. unfold amap, dense_of. simpl. f_equal.
    rewrite map_map. apply map_ext. intro r.
    rewrite map_map. apply map_ext. intro c. apply Hg. }
  unfold LowRank.eval.
  rewrite (matmul_transposed _ _ Hc Hk). cbn [bind].
  destruct (check_act_cases l Ha) as [Hact|Hact];
    destruct device; rewrite Hact; simpl;
    do 2 f_equal; apply E; intro z; unfold activation; now rewrite Hact.
Qed.

Lemma Rsign_pos (r : R) : (0 < r)%R -> Rsign r = Gt.
Proof.
  intro H. unfold Rsign. destruct (total_order_T r 0) as [[?|?]|?]; try lra. reflexivity.
Qed.


Lemma Rsign_zero : Rsign 0 = Eq.
Proof.
  unfold Rsign. destruct (total_order_T 0 0) as [[?|?]|?]; try lra. reflexivity.
Qed.

Lemma sigmoid_finite (z : R) : sigmoid (Fin z) = Fin (1 / (1 + exp (- z))).
Proof.
  unfold sigmoid. simpl.
  rewrite Rsign_pos; [reflexivity|].
  pose proof (exp_pos (- z)). lra.
Qed.

Lemma dot_as_sum (u v : list num) :
  length u = length v ->
  dot u v = fold_left nadd
              (map (fun k => nmul (nth k u NaN) (nth k v NaN)) (seq 0 (length u)))
              (Fin 0).
Proof.
  intro H. unfold dot. now rewrite (zip_with_seq nmul u v NaN NaN H).
Qed.

Lemma rect_nth_length {A : Type} (m : ndarray A) (i : nat) :
  rect m = true -> (i < nrows m)%nat -> length (nth i (data m) []) = ncols m.
Proof.
  intros H Hi. apply rect_Forall in H.
  rewrite Forall_forall in H. apply H. now apply nth_In.
Qed.

Lemma dense_of_entry (l : LowRankDataFrame) (i j : nat) :
  wf_lowrank l = true ->
  (i < nrows (ind_logits l))%nat -> (j < nrows (col_logits l))%nat ->
  entry (dense_of l) i j
  = activation (act l) (product_entry (ind_logits l) (col_logits l) i j).
Proof.
  intros H Hi Hj. apply wf_lowrank_iff in H as (Hr & Hc & Hk & _).
  apply Nat.eqb_eq in Hk.
  unfold entry, dense_of. cbn [data].
  rewrite (nth_map_lt _ _ _ []) by exact Hi.
  rewrite (nth_map_lt _ _ _ []) by exact Hj.
  f_equal. rewrite dot_as_sum.
  - rewrite (rect_nth_length _ _ Hr Hi). reflexivity.
  - rewrite (rect_nth_length _ _ Hr Hi), (rect_nth_length _ _ Hc Hj). exact Hk.
Qed.

(** C2: a well-formed low-rank matrix evaluates, without a device, to the
    table whose entry [(i, j)] is the activation of the entry [(i, j)] of
    the product of the row factors and the transposed column factors;
    [exp] is the natural exponential and [sigmoid] the logistic function
    [1 / (1 + e^(-z))]. *)
Theorem lowrank_eval_spec (l : LowRankDataFrame) :
  wf_lowrank l = true ->
  LowRank.eval None l = Ok (VArray (dense_of l))
  /\ array_shape (dense_of l) = LowRank.shape l
  /\ (forall i j, (i < nrows (ind_logits l))%nat -> (j < nrows (col_logits l))%nat ->
       entry (dense_of l) i j
       = activation (act l) (product_entry (ind_logits l) (col_logits l) i j))
  /\ (forall z : R, activation "exp" (Fin z) = Fin (exp z))
  /\ (forall z : R, activation "sigmoid" (Fin z) = Fin (1 / (1 + exp (- z)))).
Proof.
  intro H. split; [now apply lowrank_eval|].
  split; [unfold array_shape, LowRank.shape, dense_of, nrows; simpl; now rewrite length_map|].
  split; [intros; now apply dense_of_entry|].
  split; [reflexivity|].
  intro z. unfold activation. simpl. apply sigmoid_finite.
Qed.

(** The scenario of the specification evaluates to [[e, e], [e, e^0]]. *)
Lemma lowrank_eval_scenario :
  LowRank.eval None scenario
  = Ok (VArray {| ncols := 2;
                  data := [[Fin (exp 1); Fin (exp 1)]; [Fin (exp 1); Fin (exp 0)]] |}).
Proof.
  rewrite (proj1 (lowrank_eval_spec scenario eq_refl)).
  unfold dense_of, scenario, activation, dot. simpl.
  repeat f_equal; lra.
Defined.

(** ** Induction over well-formed operands *)

Lemma wf_operand_ind (P : operand -> Prop) :
  (forall x, P (Scalar x)) ->
  (forall m, rect m = true -> P (Array2d m)) ->
  (forall m, rect m = true -> P (SpMatrix m)) ->
  (forall l, wf_lowrank l = true -> P (LowRankExpr l)) ->
  (forall op a b,
      op = OpAdd \/ op = OpMul ->
      is_expression a = true -> wf_operand a = true -> wf_operand b = true ->
      is_scalar b || same_shape a b = true ->
      P a -> P b -> P (LazyExpr op [a; b])) ->
  (forall lo hi a,
      is_expression a = true -> wf_operand a = true ->
      P a -> P (LazyExpr (OpClip lo hi) [a])) ->
  forall c, wf_operand c = true -> P c.
Proof.
  intros Hs Ha Hsp Hl Hbin Hclip.
  fix IH 1.
  intros [x|m|m|idx cols sp m|l|op children] Hwf; simpl in Hwf.
  - apply Hs.
  - now apply Ha.
  - now apply Hsp.
  - discriminate.
  - now apply Hl.
  - destruct op as [| |lo hi].
    + destruct children as [|a [|b [|? ?]]]; try discriminate.
      apply andb_true_iff in Hwf as [Hwf Hsh].
      apply andb_true_iff in Hwf as [Hwf Hb].
      apply andb_true_iff in Hwf as [He Hwa].
      apply Hbin; auto.
    + destruct children as [|a [|b [|? ?]]]; try discriminate.
      apply andb_true_iff in Hwf as [Hwf Hsh].
      apply andb_true_iff in Hwf as [Hwf Hb].
      apply andb_true_iff in Hwf as [He Hwa].
      apply Hbin; auto.
    + destruct children as [|a [|? ?]]; try discriminate.
      apply andb_true_iff in Hwf as [He Hwa].
      apply Hclip; auto.
Qed.

Lemma init_expression (op : opkind) (c : operand) (cs : list operand) :
  is_expression c = true ->
  LazyScore.__init__ op (c :: cs) = Ok (LazyExpr op (c :: cs)).
Proof.
  destruct c; simpl; intro H; try discriminate; reflexivity.
Qed.

(** ** Transposition *)

Lemma lowrank_T (l : LowRankDataFrame) :
  wf_lowrank l = true ->
  LowRank.T l
  = Ok {| ind_logits := col_logits l; col_logits := ind_logits l;
          index := columns l; columns := index l; act := act l |}.
Proof.
  intro H. apply wf_lowrank_iff in H as (_ & _ & Hk & Hi & Hc & Ha).
  unfold LowRank.T. apply post_init_Ok; auto.
  unfold LowRank.check_hidden in *. simpl. now rewrite Nat.eqb_sym.
Qed.

Lemma lowrank_T_wf (l l' : LowRankDataFrame) :
  wf_lowrank l = true -> LowRank.T l = Ok l' -> wf_lowrank l' = true.
Proof.
  intros H E. rewrite (lowrank_T l H) in E. inversion E; subst; clear E.
  apply wf_lowrank_iff in H as (Hr & Hrc & Hk & Hi & Hc & Ha).
  apply wf_lowrank_iff. repeat split; auto.
  unfold LowRank.check_hidden in *. simpl. now rewrite Nat.eqb_sym.
Qed.

Lemma lowrank_T_T (l : LowRankDataFrame) :
  wf_lowrank l = true -> (t <- LowRank.T l ;; LowRank.T t) = Ok l.
Proof.
  intro H. pose proof (lowrank_T l H) as E.
  pose proof (lowrank_T_wf l _ H E) as H'.
  rewrite E. cbn [bind]. rewrite (lowrank_T _ H'). simpl. now destruct l.
Qed.

Lemma T_node (op : opkind) (children : list operand) :
  LazyScore.T (LazyExpr op children)
  = (transposed <- mapM (fun c => if is_scalar c then Ok c else LazyScore.T c) children ;;
     LazyScore.__init__ op transposed).
Proof.
  reflexivity.
Qed.

Lemma expression_not_scalar (c : operand) : is_expression c = true -> is_scalar c = false.
Proof.
  destruct c; simpl; intro H; try discriminate; reflexivity.
Qed.

Lemma operand_T_T (c : operand) :
  wf_operand c = true -> is_scalar c = false ->
  exists c', LazyScore.T c = Ok c' /\ LazyScore.T c' = Ok c
             /\ is_scalar c' = false /\ is_expression c' = is_expression c.
Proof.
  intro Hwf. pattern c. revert c Hwf. apply wf_operand_ind.
  - discriminate.
  - intros m Hm _. exists (Array2d (transpose m)). simpl.
    now rewrite (transpose_involutive m Hm).
  - intros m Hm _. exists (SpMatrix (transpose m)). simpl.
    now rewrite (transpose_involutive m Hm).
  - intros l Hl _. pose proof (lowrank_T_T l Hl) as E.
    destruct (LowRank.T l) as [t|] eqn:Et; [|discriminate]. cbn [bind] in E.
    exists (LowRankExpr t). simpl. rewrite Et, E. auto.
  - intros op a b _ Hea Hwa Hwb _ IHa IHb _.
    pose proof (expression_not_scalar a Hea) as Hna.
    destruct (IHa Hna) as (a' & Ea & Ea' & Hsa & Hxa).
    assert (Hb : exists b', (if is_scalar b then Ok b else LazyScore.T b) = Ok b'
                            /\ (if is_scalar b' then Ok b' else LazyScore.T b') = Ok b).
    { destruct (is_scalar b) eqn:Sb.
      - exists b. now rewrite Sb.
      - destruct (IHb eq_refl) as (b' & Eb & Eb' & Hsb & _).
        exists b'. now rewrite Hsb. }
    destruct Hb as (b' & Eb & Eb').
    exists (LazyExpr op [a'; b']).
    rewrite !T_node. cbn [mapM]. rewrite Hna, Hsa, Ea, Ea', Eb, Eb'. cbn [bind].
    rewrite !init_expression by congruence. auto.
  - intros lo hi a Hea Hwa IHa _.
    pose proof (expression_not_scalar a Hea) as Hna.
    destruct (IHa Hna) as (a' & Ea & Ea' & Hsa & Hxa).
    exists (LazyExpr (OpClip lo hi) [a']).
    rewrite !T_node. cbn [mapM]. rewrite Hna, Hsa, Ea, Ea'. cbn [bind].
    rewrite !init_expression by congruence. auto.
Qed.

(** C6: transposing a well-formed low-rank matrix swaps the two factor
    matrices and the two label sequences and keeps the activation, and
    transposing twice gives the matrix back; transposing a well-formed
    expression twice gives the expression back, and so the same evaluated
    values. *)
Theorem transpose_twice (l : LowRankDataFrame) (S : operand) (device : option string) :
  wf_lowrank l = true ->
  wf_expression S = true ->
  LowRank.T l
  = Ok {| ind_logits := col_logits l; col_logits := ind_logits l;
          index := columns l; columns := index l; act := act l |}
  /\ (t <- LowRank.T l ;; LowRank.T t) = Ok l
  /\ exists S', LazyScore.T S = Ok S' /\ LazyScore.T S' = Ok S
                /\ (S'' <- LazyScore.T S' ;; LazyScore.eval device S'')
                   = LazyScore.eval device S.
Proof.
  intros Hl HS.
  split; [now apply lowrank_T|].
  split; [now apply lowrank_T_T|].
  apply andb_true_iff in HS as [He Hwf].
  destruct (operand_T_T S Hwf (expression_not_scalar S He)) as (S' & E & E' & _).
  exists S'. rewrite E'. auto.
Qed.

Lemma transpose_twice_witness :
  (t <- LowRank.T scenario ;; LowRank.T t) = Ok scenario
  /\ (S' <- LazyScore.T scenario_sum ;; LazyScore.T S') = Ok scenario_sum.
Proof.
  destruct (transpose_twice scenario scenario_sum None eq_refl eq_refl)
    as (_ & H & S' & E & E' & _).
  split; [exact H|]. rewrite E. exact E'.
Defined.

(** ** Row slices *)

Lemma mapM_np_index_lt (n : nat) (ks : list Z) (idx : list nat) :
  mapM (np_index n) ks = Ok idx -> Forall (fun i => (i < n)%nat) idx.
Proof.
  revert idx; induction ks as [|k ks IH]; simpl; intros idx H.
  - inversion H. constructor.
  - destruct (np_index n k) as [i|] eqn:E; [|discriminate]. simpl in H.
    destruct (mapM (np_index n) ks) as [is'|]; [|discriminate]. simpl in H.
    inversion H; subst. constructor; [now apply np_index_lt in E | now apply IH].
Qed.

Lemma mapM_np_index_nat (n : nat) (idx : list nat) :
  Forall (fun i => (i < n)%nat) idx ->
  mapM (np_index n) (map Z.of_nat idx) = Ok idx.
Proof.
  induction 1 as [|i idx Hi _ IH]; simpl; [reflexivity|].
  now rewrite (np_index_nat n i Hi), IH.
Qed.

Lemma take_rows_at {A : Type} (m : ndarray A) (ks : list Z) (idx : list nat) :
  mapM (np_index (nrows m)) ks = Ok idx -> take_rows m ks = Ok (rows_at m idx).
Proof.
  intro H. unfold take_rows, take. fold (nrows m). now rewrite H.
Qed.

Lemma rows_at_rect {A : Type} (m : ndarray A) (idx : list nat) :
  rect m = true -> Forall (fun i => (i < nrows m)%nat) idx ->
  rect (rows_at m idx) = true.
Proof.
  intros Hm Hidx. apply rect_Forall. simpl.
  apply Forall_map. eapply Forall_impl; [|exact Hidx].
  intros i Hi. now apply rect_nth_length.
Qed.

Lemma rows_at_nrows {A : Type} (m : ndarray A) (idx : list nat) :
  nrows (rows_at m idx) = length idx.
Proof.
  unfold nrows. simpl. apply length_map.
Qed.

Lemma lowrank_rows_at_checks (l : LowRankDataFrame) (idx : list nat) :
  LowRank.check_hidden l = true -> LowRank.check_columns l = true ->
  LowRank.check_act l = true ->
  LowRank.__post_init__ (lowrank_rows_at l idx) = Ok (lowrank_rows_at l idx).
Proof.
  intros Hk Hc Ha. apply post_init_Ok; auto.
  unfold LowRank.check_index. simpl. rewrite rows_at_nrows, length_map.
  apply Nat.eqb_refl.
Qed.

Lemma lowrank_getitem (l : LowRankDataFrame) (k : key) (idx : list nat) :
  wf_lowrank l = true ->
  mapM (np_index (nrows (ind_logits l))) (normalize_key k) = Ok idx ->
  LowRank.__getitem__ l k = Ok (lowrank_rows_at l idx).
Proof.
  intros H E. apply wf_lowrank_iff in H as (_ & _ & Hk & Hi & Hc & Ha).
  unfold LowRank.__getitem__.
  rewrite (take_rows_at _ _ _ E). cbn [bind].
  unfold take. apply Nat.eqb_eq in Hi. rewrite <- Hi, E. cbn [bind].
  now apply lowrank_rows_at_checks.
Qed.

Lemma lowrank_rows_at_wf (l : LowRankDataFrame) (idx : list nat) :
  wf_lowrank l = true -> Forall (fun i => (i < nrows (ind_logits l))%nat) idx ->
  wf_lowrank (lowrank_rows_at l idx) = true.
Proof.
  intros H Hidx. apply wf_lowrank_iff in H as (Hr & Hrc & Hk & Hi & Hc & Ha).
  apply wf_lowrank_iff. repeat split; auto.
  - now apply rows_at_rect.
  - unfold LowRank.check_index. simpl. rewrite rows_at_nrows, length_map.
    apply Nat.eqb_refl.
Qed.

Lemma same_shape_eq (a b : operand) (s : nat * nat) :
  same_shape a b = true -> LazyScore.shape a = Ok s -> LazyScore.shape b = Ok s.
Proof.
  unfold same_shape. intros H E. rewrite E in H.
  destruct (LazyScore.shape b) as [[r c]|]; [|discriminate].
  destruct s as [r' c']. simpl in H.
  apply andb_true_iff in H as [H1 H2].
  apply Nat.eqb_eq in H1, H2. now subst.
Qed.

Lemma getitem_node (op : opkind) (children : list operand) (key : list Z) :
  LazyScore._auto_getitem (LazyExpr op children) key
  = (sliced <- mapM (fun c => LazyScore._auto_getitem c key) children ;;
     LazyScore.__init__ op sliced).
Proof.
  reflexivity.
Qed.

Lemma rows_at_is_expression (c : operand) (idx : list nat) :
  is_expression (operand_rows_at c idx) = is_expression c.
Proof.
  destruct c; reflexivity.
Qed.

Lemma rows_at_is_scalar (c : operand) (idx : list nat) :
  is_scalar (operand_rows_at c idx) = is_scalar c.
Proof.
  destruct c; reflexivity.
Qed.

(** Slicing a well-formed operand by valid row indices returns its rows at
    the positions the indices denote. *)
Lemma getitem_rows_at (c : operand) :
  wf_operand c = true ->
  forall (R : nat) (ks : list Z) (idx : list nat),
    (is_scalar c = false -> exists C, LazyScore.shape c = Ok (R, C)) ->
    mapM (np_index R) ks = Ok idx ->
    LazyScore._auto_getitem c ks = Ok (operand_rows_at c idx).
Proof.
  intro Hwf. pattern c. revert c Hwf. apply wf_operand_ind.
  - reflexivity.
  - intros m _ R ks idx Hs E. destruct (Hs eq_refl) as [C HC].
    inversion HC; subst. simpl. now rewrite (take_rows_at _ _ _ E).
  - intros m _ R ks idx Hs E. destruct (Hs eq_refl) as [C HC].
    inversion HC; subst. simpl. now rewrite (take_rows_at _ _ _ E).
  - intros l Hl R ks idx Hs E. destruct (Hs eq_refl) as [C HC].
    inversion HC; subst. simpl.
    now rewrite (lowrank_getitem l (KList ks) idx Hl E).
  - intros op a b _ Hea Hwa Hwb Hsh IHa IHb R ks idx Hs E.
    destruct (Hs eq_refl) as [C HC]. simpl in HC.
    assert (Ea : LazyScore._auto_getitem a ks = Ok (operand_rows_at a idx)).
    { apply (IHa R ks idx); [intros _; now exists C | exact E]. }
    assert (Eb : LazyScore._auto_getitem b ks = Ok (operand_rows_at b idx)).
    { apply (IHb R ks idx); [|exact E].
      intro Hb. rewrite Hb in Hsh. simpl in Hsh.
      exists C. now apply (same_shape_eq a b). }
    rewrite getitem_node. cbn [mapM]. rewrite Ea, Eb. cbn [bind].
    rewrite init_expression by now rewrite rows_at_is_expression.
    reflexivity.
  - intros lo hi a Hea Hwa IHa R ks idx Hs E.
    destruct (Hs eq_refl) as [C HC]. simpl in HC.
    assert (Ea : LazyScore._auto_getitem a ks = Ok (operand_rows_at a idx)).
    { apply (IHa R ks idx); [intros _; now exists C | exact E]. }
    rewrite getitem_node. cbn [mapM]. rewrite Ea. cbn [bind].
    rewrite init_expression by now rewrite rows_at_is_expression.
    reflexivity.
Qed.

Lemma rows_at_shape (c : operand) (idx : list nat) :
  wf_operand c = true ->
  forall R C, LazyScore.shape c = Ok (R, C) ->
  LazyScore.shape (operand_rows_at c idx) = Ok (length idx, C).
Proof.
  intro Hwf. pattern c. revert c Hwf. apply wf_operand_ind.
  - discriminate.
  - intros m _ R C H. inversion H; subst. simpl.
    unfold array_shape. now rewrite rows_at_nrows.
  - intros m _ R C H. inversion H; subst. simpl.
    unfold array_shape. now rewrite rows_at_nrows.
  - intros l _ R C H. inversion H; subst. simpl.
    unfold LowRank.shape. simpl. now rewrite rows_at_nrows.
  - intros op a b _ _ _ _ _ IHa _ R C H. simpl in *. now apply (IHa R).
  - intros lo hi a _ _ IHa R C H. simpl in *. now apply (IHa R).
Qed.

Lemma rows_at_wf (c : operand) (idx : list nat) :
  wf_operand c = true ->
  forall R,
    (is_scalar c = false -> exists C, LazyScore.shape c = Ok (R, C)) ->
    Forall (fun i => (i < R)%nat) idx ->
    wf_operand (operand_rows_at c idx) = true.
Proof.
  intro Hwf. pattern c. revert c Hwf. apply wf_operand_ind.
  - reflexivity.
  - intros m Hm R Hs Hidx. destruct (Hs eq_refl) as [C HC]. inversion HC; subst.
    simpl. now apply rows_at_rect.
  - intros m Hm R Hs Hidx. destruct (Hs eq_refl) as [C HC]. inversion HC; subst.
    simpl. now apply rows_at_rect.
  - intros l Hl R Hs Hidx. destruct (Hs eq_refl) as [C HC]. inversion HC; subst.
    simpl. now apply lowrank_rows_at_wf.
  - intros op a b Hop Hea Hwa Hwb Hsh IHa IHb R Hs Hidx.
    destruct (Hs eq_refl) as [C HC]. simpl in HC.
    assert (Wa : wf_operand (operand_rows_at a idx) = true).
    { apply (IHa R); [intros _; now exists C | exact Hidx]. }
    assert (Hb : is_scalar b = false -> LazyScore.shape b = Ok (R, C)).
    { intro Hb. rewrite Hb in Hsh. simpl in Hsh. now apply (same_shape_eq a b). }
    assert (Wb : wf_operand (operand_rows_at b idx) = true).
    { apply (IHb R); [|exact Hidx]. intro Sb. exists C. now apply Hb. }
    assert (Sh : is_scalar (operand_rows_at b idx)
                 || same_shape (operand_rows_at a idx) (operand_rows_at b idx) = true).
    { rewrite rows_at_is_scalar. destruct (is_scalar b) eqn:Sb; [reflexivity|]. simpl.
      unfold same_shape.
      rewrite (rows_at_shape a idx Hwa R C HC), (rows_at_shape b idx Hwb R C (Hb eq_refl)).
      simpl. now rewrite !Nat.eqb_refl. }
    destruct Hop; subst op; simpl;
      rewrite rows_at_is_expression, Hea, Wa, Wb; simpl; exact Sh.
  - intros lo hi a Hea Hwa IHa R Hs Hidx.
    destruct (Hs eq_refl) as [C HC]. simpl in HC.
    simpl. rewrite rows_at_is_expression, Hea. simpl.
    apply (IHa R); [intros _; now exists C | exact Hidx].
Qed.

(** C10: a scalar key is the one-element key, and slicing a well-formed
    expression (a low-rank matrix or a node) by one valid row index returns
    a well-formed expression of shape [(1, cols)]. *)
Theorem getitem_scalar_key (S : operand) (l : LowRankDataFrame) (k : Z) :
  LazyScore.__getitem__ S (KInt k) = LazyScore.__getitem__ S (KList [k])
  /\ LowRank.__getitem__ l (KInt k) = LowRank.__getitem__ l (KList [k])
  /\ (forall R C i,
        wf_expression S = true ->
        LazyScore.shape S = Ok (R, C) ->
        np_index R k = Ok i ->
        exists S', LazyScore.__getitem__ S (KInt k) = Ok S'
                   /\ S' = operand_rows_at S [i]
                   /\ wf_expression S' = true
                   /\ LazyScore.shape S' = Ok (1%nat, C)).
Proof.
  split; [reflexivity|]. split; [reflexivity|].
  intros R C i HS Hsh Hk.
  apply andb_true_iff in HS as [He Hwf].
  assert (E : mapM (np_index R) [k] = Ok [i]) by (simpl; now rewrite Hk).
  exists (operand_rows_at S [i]).
  split.
  { unfold LazyScore.__getitem__. rewrite He. simpl normalize_key.
    apply (getitem_rows_at S Hwf R); [intros _; now exists C | exact E]. }
  split; [reflexivity|].
  split.
  { unfold wf_expression. rewrite rows_at_is_expression, He. simpl.
    apply (rows_at_wf S [i] Hwf R); [intros _; now exists C|].
    now apply (mapM_np_index_lt R [k]). }
  now apply (rows_at_shape S [i] Hwf R C).
Qed.

Lemma getitem_scalar_key_witness :
  exists S', LazyScore.__getitem__ scenario_sum (KInt 1) = Ok S'
             /\ LazyScore.__getitem__ scenario_sum (KList [1%Z]) = Ok S'
             /\ LazyScore.shape S' = Ok (1%nat, 2%nat).
Proof.
  destruct (getitem_scalar_key scenario_sum scenario 1) as (E & _ & H).
  destruct (H 2%nat 2%nat 1%nat eq_refl eq_refl eq_refl) as (S' & E' & _ & _ & Hs).
  exists S'. rewrite <- E. auto.
Defined.

(** ** Stacking, padding and assignment keep arrays rectangular *)

Lemma vstack_inv {A : Type} (m : ndarray A) (ms : list (ndarray A)) (r : ndarray A) :
  vstack (m :: ms) = Ok r ->
  r = {| ncols := ncols m; data := concat (map (@data A) (m :: ms)) |}
  /\ Forall (fun x => ncols x = ncols m) (m :: ms).
Proof.
  unfold vstack.
  destruct (forallb (fun x => ncols x =? ncols m) ms) eqn:E; [|discriminate].
  intro H; inversion H; subst; clear H. split; [reflexivity|].
  constructor; [reflexivity|].
  rewrite forallb_forall in E. apply Forall_forall.
  intros x Hx. now apply Nat.eqb_eq, E.
Qed.

Lemma vstack_Ok {A : Type} (m : ndarray A) (ms : list (ndarray A)) :
  Forall (fun x => ncols x = ncols m) ms ->
  vstack (m :: ms)
  = Ok {| ncols := ncols m; data := concat (map (@data A) (m :: ms)) |}.
Proof.
  intro H. unfold vstack.
  replace (forallb (fun x => ncols x =? ncols m) ms) with true; [reflexivity|].
  symmetry. apply forallb_forall. rewrite Forall_forall in H.
  intros x Hx. now apply Nat.eqb_eq, H.
Qed.

Lemma vstack_rect {A : Type} (ms : list (ndarray A)) (r : ndarray A) :
  Forall (fun x => rect x = true) ms -> vstack ms = Ok r -> rect r = true.
Proof.
  destruct ms as [|m ms]; [discriminate|].
  intros Hr E. apply vstack_inv in E as [-> Hc].
  apply rect_Forall. simpl ncols. cbn [data].
  apply Forall_concat, Forall_map.
  rewrite Forall_forall in *. intros x Hx.
  specialize (Hr x Hx). specialize (Hc x Hx).
  apply rect_Forall in Hr. now rewrite <- Hc.
Qed.

Lemma np_pad_rect {A : Type} (m : ndarray A) (below right : nat) (c : A) :
  rect m = true -> rect (np_pad m below right c) = true.
Proof.
  intro H. apply rect_Forall in H. apply rect_Forall. simpl.
  apply Forall_app. split.
  - apply Forall_map. eapply Forall_impl; [|exact H].
    intros r Hr. simpl. now rewrite length_app, repeat_length, Hr.
  - apply Forall_forall. intros r Hr. apply repeat_spec in Hr. subst.
    apply repeat_length.
Qed.

Lemma set_nth_length {A : Type} (n : nat) (v : A) (l : list A) :
  length (set_nth n v l) = length l.
Proof.
  revert n; induction l as [|x l IH]; intros [|n]; simpl; auto.
Qed.

Lemma set_nth_Forall {A : Type} (P : A -> Prop) (n : nat) (v : A) (l : list A) :
  P v -> Forall P l -> Forall P (set_nth n v l).
Proof.
  intros Hv H. revert n. induction H as [|x l Hx Hl IH]; intros [|n]; simpl;
    constructor; auto.
Qed.

Lemma setitem_rect {A : Type} (m m' : ndarray A) (i j : Z) (v : A) :
  rect m = true -> setitem m i j v = Ok m' -> rect m' = true.
Proof.
  intros H E. unfold setitem in E.
  destruct (np_index (nrows m) i) as [r|] eqn:Er; [|discriminate].
  destruct (np_index (ncols m) j) as [c|] eqn:Ec; [|discriminate].
  simpl in E. inversion E; subst; clear E.
  apply np_index_lt in Er.
  apply rect_Forall. simpl. apply set_nth_Forall.
  - rewrite set_nth_length. now apply rect_nth_length.
  - now apply rect_Forall.
Qed.

Lemma take_rows_inv {A : Type} (m r : ndarray A) (ks : list Z) :
  take_rows m ks = Ok r ->
  exists idx, mapM (np_index (nrows m)) ks = Ok idx /\ r = rows_at m idx.
Proof.
  unfold take_rows, take. fold (nrows m).
  destruct (mapM (np_index (nrows m)) ks) as [idx|]; [|discriminate].
  simpl. intro H; inversion H. now exists idx.
Qed.

Lemma take_rows_rect {A : Type} (m r : ndarray A) (ks : list Z) :
  rect m = true -> take_rows m ks = Ok r -> rect r = true.
Proof.
  intros H E. apply take_rows_inv in E as (idx & E & ->).
  apply rows_at_rect; [exact H|]. now apply (mapM_np_index_lt _ ks).
Qed.

(** ** The operations keep low-rank matrices well formed *)

Lemma post_init_wf (l l' : LowRankDataFrame) :
  rect (ind_logits l) = true -> rect (col_logits l) = true ->
  LowRank.__post_init__ l = Ok l' -> wf_lowrank l' = true.
Proof.
  intros Hr Hc E. apply post_init_inv in E as (-> & ? & ? & ? & ?).
  apply wf_lowrank_iff. auto 6.
Qed.

Lemma lowrank_getitem_wf (l l' : LowRankDataFrame) (k : key) :
  wf_lowrank l = true -> LowRank.__getitem__ l k = Ok l' -> wf_lowrank l' = true.
Proof.
  intros H E. pose proof H as H'.
  apply wf_lowrank_iff in H' as (Hr & Hc & _).
  unfold LowRank.__getitem__ in E.
  destruct (take_rows (ind_logits l) (normalize_key k)) as [rows|] eqn:Et; [|discriminate].
  cbn [bind] in E.
  destruct (take EmptyString (index l) (normalize_key k)) as [labels|]; [|discriminate].
  cbn [bind] in E.
  apply post_init_wf in E; auto.
  simpl. now apply (take_rows_rect _ _ _ Hr Et).
Qed.

Lemma lowrank_collate_wf (batch : list LowRankDataFrame) (l' : LowRankDataFrame) :
  Forall (fun b => wf_lowrank b = true) batch ->
  LowRank.collate_fn batch = Ok l' -> wf_lowrank l' = true.
Proof.
  intros H E. destruct batch as [|first rest]; [discriminate|].
  unfold LowRank.collate_fn in E.
  destruct (vstack (map ind_logits (first :: rest))) as [stacked|] eqn:Ev; [|discriminate].
  cbn [bind] in E.
  apply post_init_wf in E; auto; simpl.
  - apply (vstack_rect (map ind_logits (first :: rest))); [|exact Ev].
    apply Forall_map. eapply Forall_impl; [|exact H].
    intros b Hb. now apply wf_lowrank_iff in Hb.
  - inversion H; subst. now apply wf_lowrank_iff in H2.
Qed.

Lemma lowrank_reindex_rows_wf (l l' : LowRankDataFrame) (new_index : list label) (fill : num) :
  wf_lowrank l = true ->
  LowRank.reindex_rows l new_index fill = Ok l' -> wf_lowrank l' = true.
Proof.
  intros H E. apply wf_lowrank_iff in H as (Hr & Hc & _).
  unfold LowRank.reindex_rows in E.
  destruct (setitem (np_pad (ind_logits l) 1 1 (Fin 0)) (-1) (-1) (nlog fill))
    as [ind|] eqn:Es; [|discriminate].
  cbn [bind] in E.
  destruct (series_reindex (fst (LowRank.shape l)) (index l) new_index)
    as [new_ind|]; [|discriminate].
  cbn [bind] in E.
  destruct (take_rows ind new_ind) as [rows|] eqn:Et; [|discriminate].
  cbn [bind] in E.
  apply post_init_wf in E; auto; simpl.
  - apply (take_rows_rect ind _ new_ind); [|exact Et].
    apply (setitem_rect _ _ _ _ _ (np_pad_rect _ 1 1 (Fin 0) Hr) Es).
  - now apply np_pad_rect.
Qed.

Lemma lowrank_reindex_wf (l l' : LowRankDataFrame) (new_index : list label)
    (axis : Z) (fill : num) :
  wf_lowrank l = true ->
  LowRank.reindex l new_index axis fill = Ok l' -> wf_lowrank l' = true.
Proof.
  intros H E. unfold LowRank.reindex in E.
  destruct (axis =? 1)%Z.
  - destruct (LowRank.T l) as [t|] eqn:Et; [|discriminate]. cbn [bind] in E.
    destruct (LowRank.reindex_rows t new_index fill) as [r|] eqn:Er; [|discriminate].
    cbn [bind] in E.
    apply (lowrank_T_wf r); [|exact E].
    apply (lowrank_reindex_rows_wf t r new_index fill); [|exact Er].
    now apply (lowrank_T_wf l).
  - now apply (lowrank_reindex_rows_wf l l' new_index fill).
Qed.

(** C9: the operations that return a low-rank matrix return a well-formed
    one: equal hidden ranks, as many row factors as row labels, as many
    column factors as column labels, an activation that is [exp] or
    [sigmoid] (and rectangular factor arrays). *)
Theorem lowrank_operations_wf (l : LowRankDataFrame) (batch : list LowRankDataFrame) :
  wf_lowrank l = true ->
  Forall (fun b => wf_lowrank b = true) batch ->
  (forall l', LowRank.T l = Ok l' -> wf_lowrank l' = true)
  /\ (forall k l', LowRank.__getitem__ l k = Ok l' -> wf_lowrank l' = true)
  /\ (forall l', LowRank.collate_fn batch = Ok l' -> wf_lowrank l' = true)
  /\ (forall new_index axis fill l',
        LowRank.reindex l new_index axis fill = Ok l' -> wf_lowrank l' = true).
Proof.
  intros Hl Hb. repeat split.
  - intro l'. now apply lowrank_T_wf.
  - intros k l'. now apply lowrank_getitem_wf.
  - intro l'. now apply lowrank_collate_wf.
  - intros new_index axis fill l'. now apply lowrank_reindex_wf.
Qed.

Lemma lowrank_operations_wf_witness :
  (exists t, LowRank.T scenario = Ok t /\ wf_lowrank t = true)
  /\ (exists g, LowRank.__getitem__ scenario (KInt 1) = Ok g /\ wf_lowrank g = true)
  /\ (exists c, LowRank.collate_fn [scenario; scenario] = Ok c /\ wf_lowrank c = true)
  /\ (exists r, LowRank.reindex scenario ["a"%string; "c"%string] 0 (Fin 0) = Ok r
                /\ wf_lowrank r = true).
Proof.
  assert (Hb : Forall (fun b => wf_lowrank b = true) [scenario; scenario])
    by (repeat constructor).
  destruct (lowrank_operations_wf scenario [scenario; scenario] eq_refl Hb)
    as (HT & HG & HC & HR).
  repeat split.
  - eexists. split; [reflexivity|]. now apply HT.
  - eexists. split; [reflexivity|]. now apply (HG (KInt 1)).
  - eexists. split; [reflexivity|]. now apply HC.
  - eexists. split; [reflexivity|].
    now apply (HR ["a"%string; "c"%string] 0%Z (Fin 0)).
Defined.

(** ** Collating row slices *)

Lemma map_nth_seq {A : Type} (l : list A) (d : A) :
  map (fun i => nth i l d) (seq 0 (length l)) = l.
Proof.
  induction l as [|x l IH]; simpl; [reflexivity|].
  f_equal. rewrite <- seq_shift, map_map. exact IH.
Qed.

Lemma lowrank_rows_at_all (l : LowRankDataFrame) :
  LowRank.check_index l = true ->
  lowrank_rows_at l (seq 0 (nrows (ind_logits l))) = l.
Proof.
  intro Hi. apply Nat.eqb_eq in Hi.
  unfold lowrank_rows_at, rows_at. rewrite Hi at 2. unfold nrows.
  rewrite !map_nth_seq. now destruct l as [[? ?] ? ? ? ?].
Qed.

Lemma lowrank_collate_inv (b : LowRankDataFrame) (bs : list LowRankDataFrame)
    (c : LowRankDataFrame) :
  LowRank.collate_fn (b :: bs) = Ok c ->
  ind_logits c = {| ncols := ncols (ind_logits b);
                    data := concat (map (fun e => data (ind_logits e)) (b :: bs)) |}
  /\ index c = concat (map index (b :: bs))
  /\ col_logits c = col_logits b /\ columns c = columns b /\ act c = act b.
Proof.
  unfold LowRank.collate_fn.
  destruct (vstack (map ind_logits (b :: bs))) as [stacked|] eqn:Ev; [|discriminate].
  cbn [bind]. intro E. apply post_init_inv in E as (-> & _).
  cbn [map] in Ev. apply vstack_inv in Ev as [-> _].
  simpl. rewrite map_map. auto.
Qed.

Lemma lowrank_collate_rows_at (l : LowRankDataFrame) (idx : list nat) (idxs : list (list nat)) :
  LowRank.check_hidden l = true -> LowRank.check_columns l = true ->
  LowRank.check_act l = true ->
  LowRank.collate_fn (map (lowrank_rows_at l) (idx :: idxs))
  = Ok (lowrank_rows_at l (concat (idx :: idxs))).
Proof.
  intros Hk Hc Ha. unfold LowRank.collate_fn. cbn [map].
  rewrite vstack_Ok.
  2:{ apply Forall_map, Forall_map, Forall_forall. reflexivity. }
  cbn [bind].
  replace {| ind_logits := _; col_logits := _; index := _; columns := _; act := _ |}
    with (lowrank_rows_at l (concat (idx :: idxs))).
  - now apply lowrank_rows_at_checks.
  - unfold lowrank_rows_at at 1. f_equal.
    + unfold rows_at. simpl. f_equal.
      rewrite !map_app, !concat_map, !map_map. reflexivity.
    + simpl. rewrite !map_app, !concat_map, !map_map. reflexivity.
Qed.

Lemma np_index_in_range (n : nat) (k : Z) :
  (0 <= k < Z.of_nat n)%Z -> np_index n k = Ok (Z.to_nat k).
Proof.
  intro H. rewrite <- (Z2Nat.id k) at 1 by lia. apply np_index_nat. lia.
Qed.

Lemma lowrank_getitem_parts (l : LowRankDataFrame) (parts : list (list Z)) :
  wf_lowrank l = true ->
  (forall ks k, In ks parts -> In k ks -> (0 <= k < Z.of_nat (nrows (ind_logits l)))%Z) ->
  mapM (fun ks => LowRank.__getitem__ l (KList ks)) parts
  = Ok (map (fun ks => lowrank_rows_at l (map Z.to_nat ks)) parts).
Proof.
  intros Hl H. apply mapM_Ok_map. intros ks Hks.
  apply lowrank_getitem; [exact Hl|]. simpl.
  apply mapM_Ok_map. intros k Hk. apply np_index_in_range. now apply (H ks).
Qed.

(** C5: the row slices of a well-formed low-rank matrix, for any split of
    its row indices into batches, collate to the matrix itself, so to the
    same evaluation; a collation stacks the row factors of the elements
    and concatenates their row labels, and takes the column factors, the
    column labels and the activation from the first element. *)
Theorem collate_row_slices (l : LowRankDataFrame) (parts : list (list Z))
    (device : option string) :
  wf_lowrank l = true ->
  parts <> [] ->
  concat parts = map Z.of_nat (seq 0 (nrows (ind_logits l))) ->
  exists slices,
    mapM (fun ks => LowRank.__getitem__ l (KList ks)) parts = Ok slices
    /\ LowRank.collate_fn slices = Ok l
    /\ (c <- LowRank.collate_fn slices ;; LowRank.eval device c) = LowRank.eval device l
    /\ (forall b bs c,
          LowRank.collate_fn (b :: bs) = Ok c ->
          ind_logits c = {| ncols := ncols (ind_logits b);
                            data := concat (map (fun e => data (ind_logits e)) (b :: bs)) |}
          /\ index c = concat (map index (b :: bs))
          /\ col_logits c = col_logits b /\ columns c = columns b /\ act c = act b).
Proof.
  intros Hl Hne Hcat.
  exists (map (fun ks => lowrank_rows_at l (map Z.to_nat ks)) parts).
  assert (Hrange : forall ks k, In ks parts -> In k ks ->
                     (0 <= k < Z.of_nat (nrows (ind_logits l)))%Z).
  { intros ks k Hks Hk.
    assert (Hin : In k (concat parts)) by (apply in_concat; eauto).
    rewrite Hcat in Hin. apply in_map_iff in Hin as (i & <- & Hi).
    apply in_seq in Hi. lia. }
  assert (Hcol : LowRank.collate_fn
                   (map (fun ks => lowrank_rows_at l (map Z.to_nat ks)) parts) = Ok l).
  { pose proof Hl as Hl'. apply wf_lowrank_iff in Hl' as (_ & _ & Hk & Hi & Hc & Ha).
    destruct parts as [|p ps]; [contradiction|].
    rewrite <- (map_map (map Z.to_nat) (lowrank_rows_at l)).
    change (map (map Z.to_nat) (p :: ps))
      with (map Z.to_nat p :: map (map Z.to_nat) ps).
    rewrite lowrank_collate_rows_at by assumption.
    f_equal.
    change (map Z.to_nat p :: map (map Z.to_nat) ps) with (map (map Z.to_nat) (p :: ps)).
    rewrite <- concat_map, Hcat, map_map.
    rewrite (map_ext _ (fun i => i)) by apply Nat2Z.id.
    rewrite map_id. now apply lowrank_rows_at_all. }
  split; [now apply lowrank_getitem_parts|].
  split; [exact Hcol|].
  split; [now rewrite Hcol|].
  intros b bs c. apply lowrank_collate_inv.
Qed.

Lemma collate_row_slices_witness :
  (exists slices,
      mapM (fun ks => LowRank.__getitem__ seven_by_three (KList ks))
           (batch_sampler 1 [] (map Z.of_nat (seq 0 7))) = Ok slices
      /\ LowRank.collate_fn slices = Ok seven_by_three)
  /\ (exists slices,
        mapM (fun ks => LowRank.__getitem__ seven_by_three (KList ks))
             (batch_sampler 3 [] (map Z.of_nat (seq 0 7))) = Ok slices
        /\ LowRank.collate_fn slices = Ok seven_by_three)
  /\ (exists slices,
        mapM (fun ks => LowRank.__getitem__ seven_by_three (KList ks))
             (batch_sampler 7 [] (map Z.of_nat (seq 0 7))) = Ok slices
        /\ LowRank.collate_fn slices = Ok seven_by_three).
Proof.
  repeat split.
  - destruct (collate_row_slices seven_by_three
                (batch_sampler 1 [] (map Z.of_nat (seq 0 7))) None eq_refl)
      as (slices & E & C & _); [discriminate | reflexivity |].
    exists slices. auto.
  - destruct (collate_row_slices seven_by_three
                (batch_sampler 3 [] (map Z.of_nat (seq 0 7))) None eq_refl)
      as (slices & E & C & _); [discriminate | reflexivity |].
    exists slices. auto.
  - destruct (collate_row_slices seven_by_three
                (batch_sampler 7 [] (map Z.of_nat (seq 0 7))) None eq_refl)
      as (slices & E & C & _); [discriminate | reflexivity |].
    exists slices. auto.
Defined.

(** ** Reindexing *)

Lemma find_pos_lt (x : string) (l : list string) (q : nat) :
  find_pos x l = Some q -> (q < length l)%nat.
Proof.
  revert q; induction l as [|y l IH]; simpl; intros q H; [discriminate|].
  destruct (String.eqb x y).
  - inversion H. lia.
  - destruct (find_pos x l) as [p|]; [|discriminate].
    inversion H. specialize (IH p eq_refl). lia.
Qed.

Lemma find_pos_None (x : string) (l : list string) :
  ~ In x l -> find_pos x l = None.
Proof.
  induction l as [|y l IH]; simpl; intro H; [reflexivity|].
  destruct (String.eqb x y) eqn:E.
  - apply String.eqb_eq in E. subst. tauto.
  - rewrite IH by tauto. reflexivity.
Qed.

Lemma has_dup_cons (x : string) (l : list string) :
  has_dup (x :: l) = false -> ~ In x l /\ has_dup l = false.
Proof.
  simpl. intro H. apply orb_false_iff in H as [H1 H2]. split; [|exact H2].
  intro Hin. assert (E : existsb (String.eqb x) l = true).
  { apply existsb_exists. exists x. split; [exact Hin | apply String.eqb_refl]. }
  congruence.
Qed.

Lemma find_pos_nth_error (x : string) (l : list string) (q : nat) :
  has_dup l = false -> nth_error l q = Some x -> find_pos x l = Some q.
Proof.
  revert q; induction l as [|y l IH]; intros q Hd Hq.
  - destruct q; discriminate.
  - apply has_dup_cons in Hd as [Hy Hd]. destruct q as [|q]; simpl in *.
    + inversion Hq; subst. now rewrite String.eqb_refl.
    + destruct (String.eqb x y) eqn:E.
      * apply String.eqb_eq in E. subst. apply nth_error_In in Hq. contradiction.
      * now rewrite (IH q Hd Hq).
Qed.

Lemma series_reindex_Ok (n : nat) (old new : list label) :
  length old = n -> has_dup old = false ->
  series_reindex n old new
  = Ok (map (fun lbl => match find_pos lbl old with
                        | Some p => Z.of_nat p
                        | None => (-1)%Z
                        end) new).
Proof.
  intros Hn Hd. unfold series_reindex. now rewrite Hn, Nat.eqb_refl, Hd.
Qed.

Lemma set_nth_repeat_last {A : Type} (n : nat) (c v : A) :
  set_nth n v (repeat c (n + 1)) = repeat c n ++ [v].
Proof.
  induction n as [|n IH]; simpl; [reflexivity|]. now rewrite IH.
Qed.

Lemma set_nth_app_last {A : Type} (l : list A) (x x' : A) :
  set_nth (length l) x' (l ++ [x]) = l ++ [x'].
Proof.
  induction l as [|y l IH]; simpl; [reflexivity|]. now rewrite IH.
Qed.

Lemma nth_app_last {A : Type} (l : list A) (x d : A) :
  nth (length l) (l ++ [x]) d = x.
Proof.
  induction l as [|y l IH]; simpl; auto.
Qed.

Lemma reindex_setitem (ind : ndarray num) (v : num) :
  setitem (np_pad ind 1 1 (Fin 0)) (-1) (-1) v
  = Ok {| ncols := ncols ind + 1;
          data := map (fun r => r ++ [Fin 0]) (data ind)
                  ++ [repeat (Fin 0) (ncols ind) ++ [v]] |}.
Proof.
  unfold setitem, np_pad, nrows. cbn [data ncols repeat].
  rewrite length_app, length_map. cbn [length].
  rewrite !np_index_last by lia. cbn [bind].
  replace (length (data ind) + 1 - 1)%nat with (length (map (fun r => r ++ [Fin 0]) (data ind)))
    by (rewrite length_map; lia).
  rewrite nth_app_last, set_nth_app_last.
  replace (ncols ind + 1 - 1)%nat with (ncols ind) by lia.
  now rewrite set_nth_repeat_last.
Qed.

Lemma reindex_take_rows (l : LowRankDataFrame) (new_index : list label) (fill : num) :
  LowRank.check_index l = true ->
  take_rows
    {| ncols := ncols (ind_logits l) + 1;
       data := map (fun r => r ++ [Fin 0]) (data (ind_logits l))
               ++ [repeat (Fin 0) (ncols (ind_logits l)) ++ [nlog fill]] |}
    (map (fun lbl => match find_pos lbl (index l) with
                     | Some p => Z.of_nat p
                     | None => (-1)%Z
                     end) new_index)
  = Ok {| ncols := ncols (ind_logits l) + 1;
          data := map (reindexed_row l fill) new_index |}.
Proof.
  intro Hi. apply Nat.eqb_eq in Hi. unfold nrows in Hi.
  set (rows := map (fun r => r ++ [Fin 0]) (data (ind_logits l))).
  set (last := repeat (Fin 0) (ncols (ind_logits l)) ++ [nlog fill]).
  assert (Hlen : length rows = length (data (ind_logits l))) by apply length_map.
  rewrite (take_rows_at _ _
             (map (fun lbl => match find_pos lbl (index l) with
                              | Some p => p
                              | None => length rows
                              end) new_index)).
  - unfold rows_at. cbn [ncols data]. f_equal. f_equal.
    rewrite map_map. apply map_ext. intro lbl. unfold reindexed_row.
    destruct (find_pos lbl (index l)) as [q|] eqn:E.
    + apply find_pos_lt in E.
      rewrite app_nth1 by lia.
      unfold rows. now rewrite (nth_map_lt _ _ _ []) by lia.
    + apply nth_app_last.
  - unfold nrows. cbn [data]. rewrite length_app. cbn [length].
    rewrite mapM_map. apply mapM_Ok_map. intros lbl _.
    destruct (find_pos lbl (index l)) as [q|] eqn:E.
    + apply find_pos_lt in E. apply np_index_nat. lia.
    + rewrite np_index_last by lia. f_equal. lia.
Qed.

Lemma reindex_rows_Ok (l : LowRankDataFrame) (new_index : list label) (fill : num) :
  wf_lowrank l = true -> has_dup (index l) = false ->
  LowRank.reindex_rows l new_index fill = Ok (reindexed l new_index fill).
Proof.
  intros H Hd. apply wf_lowrank_iff in H as (Hr & Hc & Hk & Hi & Hcol & Ha).
  unfold LowRank.reindex_rows.
  rewrite reindex_setitem. cbn [bind].
  rewrite series_reindex_Ok; [| |exact Hd].
  2:{ apply Nat.eqb_eq in Hi. now rewrite <- Hi. }
  cbn [bind]. rewrite (reindex_take_rows l new_index fill Hi). cbn [bind].
  apply post_init_Ok.
  - unfold LowRank.check_hidden in *. simpl. apply Nat.eqb_eq in Hk.
    apply Nat.eqb_eq. lia.
  - unfold LowRank.check_index, nrows. simpl. rewrite length_map. apply Nat.eqb_refl.
  - unfold LowRank.check_columns, nrows in *. simpl.
    now rewrite length_app, length_map, Nat.add_0_r.
  - exact Ha.
Qed.

Lemma nadd_zero_r (x : num) : nadd x (Fin 0) = x.
Proof.
  destruct x; simpl; try reflexivity. f_equal. lra.
Qed.



Lemma zip_with_app {A B C : Type} (g : A -> B -> C) (u u' : list A) (v v' : list B) :
  length u = length v ->
  zip_with g (u ++ u') (v ++ v') = zip_with g u v ++ zip_with g u' v'.
Proof.
  revert v; induction u as [|x u IH]; intros [|y v] H; simpl in *;
    try discriminate; [reflexivity|].
  f_equal. apply IH. congruence.
Qed.

Lemma dot_app_last (u v : list num) (a b : num) :
  length u = length v ->
  dot (u ++ [a]) (v ++ [b]) = nadd (dot u v) (nmul a b).
Proof.
  intro H. unfold dot. rewrite (zip_with_app nmul u [a] v [b] H).
  now rewrite fold_left_app.
Qed.




Lemma map_const {A B : Type} (x : B) (l : list A) :
  map (fun _ => x) l = repeat x (length l).
Proof.
  induction l as [|y l IH]; simpl; [reflexivity|]. now rewrite IH.
Qed.

(** The evaluated row of a reindexed matrix at a position of the new labels. *)
Lemma reindexed_dense_row (l : LowRankDataFrame) (new_index : list label) (fill : num)
    (p : nat) (lbl : label) :
  nth_error new_index p = Some lbl ->
  nth p (data (dense_of (reindexed l new_index fill))) []
  = map (fun c => activation (act l) (dot (reindexed_row l fill lbl) (c ++ [Fin 1])))
        (data (col_logits l)).
Proof.
  intro Hp.
  assert (Hlt : (p < length new_index)%nat) by (apply nth_error_Some; congruence).
  unfold dense_of, reindexed. cbn [data ncols ind_logits col_logits act np_pad repeat].
  rewrite app_nil_r.
  rewrite (nth_map_lt _ _ _ []) by now rewrite length_map.
  rewrite (nth_map_lt _ _ _ EmptyString) by exact Hlt.
  rewrite (nth_error_nth _ _ _ Hp).
  rewrite map_map. reflexivity.
Qed.

Lemma reindexed_present_row (l : LowRankDataFrame) (fill : num) (lbl : label) (q : nat) :
  wf_lowrank l = true ->
  find_pos lbl (index l) = Some q ->
  map (fun c => activation (act l) (dot (reindexed_row l fill lbl) (c ++ [Fin 1])))
      (data (col_logits l))
  = nth q (data (dense_of l)) [].
Proof.
  intros H Hq. apply wf_lowrank_iff in H as (Hr & Hc & Hk & Hi & _).
  apply Nat.eqb_eq in Hk, Hi. apply find_pos_lt in Hq as Hlt. rewrite <- Hi in Hlt.
  unfold dense_of. cbn [data].
  rewrite (nth_map_lt _ _ _ []) by exact Hlt.
  apply map_ext_in. intros c Hin. f_equal.
  unfold reindexed_row. rewrite Hq.
  rewrite dot_app_last.
  - simpl nmul. replace (0 * 1)%R with 0%R by lra. apply nadd_zero_r.
  - rewrite (rect_nth_length _ _ Hr Hlt).
    apply rect_Forall in Hc. rewrite Forall_forall in Hc. now rewrite (Hc c Hin).
Qed.





Lemma nlog_zero : nlog (Fin 0) = NInf.
Proof.
  unfold nlog. now rewrite Rsign_zero.
Qed.

Lemma nlog_one : nlog (Fin 1) = Fin 0.
Proof.
  unfold nlog. rewrite Rsign_pos by lra. now rewrite ln_1.
Qed.

Lemma reindex_eval (l : LowRankDataFrame) (new_index : list label) (fill : num) :
  wf_lowrank l = true -> has_dup (index l) = false ->
  (l' <- LowRank.reindex l new_index 0 fill ;; LowRank.eval None l')
  = Ok (VArray (dense_of (reindexed l new_index fill))).
Proof.
  intros Hl Hd.
  pose proof (reindex_rows_Ok l new_index fill Hl Hd) as E.
  unfold LowRank.reindex. simpl Z.eqb. cbv iota. rewrite E. cbn [bind].
  apply lowrank_eval. now apply (lowrank_reindex_rows_wf l _ new_index fill).
Qed.


(** pandas refuses to reindex from duplicate row labels. *)
Example reindex_duplicate_labels :
  LowRank.reindex (one_by_one (Fin 1) ["a"; "a"]%string "exp") ["a"%string] 0 (Fin 0)
  = Err ValueError.
Proof.
  reflexivity.
Qed.

(** An infinite column factor times the zeros of the synthetic row is NaN. *)
Example reindex_infinite_factor :
  (l' <- LowRank.reindex (one_by_one PInf ["a"%string] "exp") ["b"%string] 0 (Fin 0) ;;
   LowRank.eval None l')
  = Ok (VArray {| ncols := 1; data := [[NaN]] |}).
Proof.
  rewrite reindex_eval by reflexivity.
  unfold dense_of, reindexed, reindexed_row, activation, dot.
  rewrite nlog_zero. simpl. now rewrite Rsign_zero.
Qed.

(** Under [sigmoid] the synthetic row still carries [log(fill_value)], not
    the logit of [fill_value]: a fill value of 1 comes out as 1/2. *)
Example reindex_sigmoid_one :
  (l' <- LowRank.reindex (one_by_one (Fin 0) ["a"%string] "sigmoid") ["b"%string] 0 (Fin 1) ;;
   LowRank.eval None l')
  = Ok (VArray {| ncols := 1; data := [[Fin (1 / 2)]] |}).
Proof.
  rewrite reindex_eval by reflexivity.
  unfold dense_of, reindexed, reindexed_row, activation, dot.
  rewrite nlog_one. simpl.
  rewrite sigmoid_finite.
  replace (- (0 + 0 * 0 + 0 * 1))%R with 0%R by lra.
  rewrite exp_0. replace (1 / (1 + 1))%R with (1 / 2)%R by lra.
  reflexivity.
Qed.

(** ** Evaluation *)

Lemma eval_node (device : option string) (op : opkind) (children : list operand) :
  LazyScore._auto_eval device (LazyExpr op children)
  = (args <- mapM (LazyScore._auto_eval device) children ;; apply_op op args).
Proof.
  reflexivity.
Qed.

Lemma amap_rect (g : num -> num) (m : ndarray num) :
  rect m = true -> rect (amap g m) = true.
Proof.
  intro H. apply rect_Forall in H. apply rect_Forall. simpl.
  apply Forall_map. eapply Forall_impl; [|exact H].
  intros r Hr. simpl. now rewrite length_map.
Qed.

Lemma amap_shape (g : num -> num) (m : ndarray num) :
  array_shape (amap g m) = array_shape m.
Proof.
  unfold array_shape, nrows. simpl. now rewrite length_map.
Qed.

Lemma array_shape_inv {A : Type} (m n : ndarray A) :
  array_shape m = array_shape n -> nrows m = nrows n /\ ncols m = ncols n.
Proof.
  unfold array_shape. intro H. now inversion H.
Qed.

Lemma zip_arrays_rect (f : num -> num -> num) (m n : ndarray num) :
  rect m = true -> rect n = true -> array_shape m = array_shape n ->
  rect (zip_arrays f m n) = true.
Proof.
  intros Hm Hn Hs. apply array_shape_inv in Hs as [Hr Hc]. unfold nrows in Hr.
  apply rect_Forall in Hm, Hn. apply rect_Forall. simpl.
  rewrite Hc in Hm. revert Hm Hn Hr. rewrite Hc.
  generalize (ncols n) as w. generalize (data n) as rn. generalize (data m) as rm.
  induction rm as [|r rm IH]; intros [|r' rn] w Hm Hn Hr; simpl in *;
    try discriminate; constructor.
  - inversion Hm; inversion Hn; subst. rewrite zip_with_length; congruence.
  - inversion Hm; inversion Hn; subst. apply IH; auto.
Qed.

Lemma zip_arrays_shape (f : num -> num -> num) (m n : ndarray num) :
  array_shape m = array_shape n -> array_shape (zip_arrays f m n) = array_shape m.
Proof.
  intro Hs. apply array_shape_inv in Hs as [Hr Hc].
  unfold array_shape, nrows in *. simpl. now rewrite zip_with_length.
Qed.

Lemma bcast_dim_same (a : nat) : bcast_dim a a = Ok a.
Proof.
  unfold bcast_dim. now rewrite Nat.eqb_refl.
Qed.

Lemma bget_entry (d : num) (m : ndarray num) (i j : nat) :
  (i < nrows m)%nat -> (j < ncols m)%nat ->
  bget d m i j = nth j (nth i (data m) []) d.
Proof.
  intros Hi Hj. unfold bget.
  destruct (ncols m =? 1) eqn:Ec; destruct (nrows m =? 1) eqn:Er;
    try apply Nat.eqb_eq in Ec; try apply Nat.eqb_eq in Er;
    repeat match goal with
           | H : _ = 1%nat |- _ => rewrite H in *
           end;
    repeat match goal with
           | H : (?x < 1)%nat |- _ => assert (x = 0%nat) by lia; subst x; clear H
           end; reflexivity.
Qed.

Lemma broadcast2_same (d : num) (f : num -> num -> num) (m n : ndarray num) :
  rect m = true -> rect n = true -> array_shape m = array_shape n ->
  broadcast2 d f m n = Ok (zip_arrays f m n).
Proof.
  intros Hm Hn Hs. apply array_shape_inv in Hs as [Hr Hc].
  unfold broadcast2. rewrite <- Hr, <- Hc, !bcast_dim_same. cbn [bind].
  unfold zip_arrays. do 2 f_equal.
  rewrite (zip_with_seq _ _ _ [] []) by exact Hr.
  apply map_ext_in. intros i Hi. apply in_seq in Hi.
  assert (Hi' : (i < nrows m)%nat) by (unfold nrows; lia).
  rewrite (zip_with_seq f _ _ d d).
  2:{ rewrite (rect_nth_length m i Hm Hi'), (rect_nth_length n i Hn); congruence. }
  rewrite (rect_nth_length m i Hm Hi').
  apply map_ext_in. intros j Hj. apply in_seq in Hj.
  rewrite !bget_entry; auto; try lia; congruence.
Qed.

Lemma dense_of_rect (l : LowRankDataFrame) : rect (dense_of l) = true.
Proof.
  apply rect_Forall. unfold dense_of. simpl.
  apply Forall_map, Forall_forall. intros r _. apply length_map.
Qed.

Lemma dense_of_shape (l : LowRankDataFrame) :
  array_shape (dense_of l) = LowRank.shape l.
Proof.
  unfold array_shape, LowRank.shape, dense_of, nrows. simpl. now rewrite length_map.
Qed.

Lemma binary_arrays (f : num -> num -> num) (m n : ndarray num) :
  rect m = true -> rect n = true -> array_shape m = array_shape n ->
  binary f (VArray m) (VArray n) = Ok (VArray (zip_arrays f m n)).
Proof.
  intros Hm Hn Hs. simpl. now rewrite (broadcast2_same NaN f m n Hm Hn Hs).
Qed.

Lemma apply_op_binary (op : opkind) (x y : value) :
  op = OpAdd \/ op = OpMul -> apply_op op [x; y] = binary (op_fun op) x y.
Proof.
  intros [-> | ->]; reflexivity.
Qed.

Lemma binary_combine (f : num -> num -> num) (m : ndarray num) (v : value) :
  rect m = true -> fits m v ->
  binary f (VArray m) v = Ok (VArray (combine f m v)).
Proof.
  intros Hm Hv. destruct v as [|x|n]; simpl in Hv; [contradiction|reflexivity|].
  destruct Hv as [Hn Hs]. now apply binary_arrays.
Qed.

Lemma combine_rect (f : num -> num -> num) (m : ndarray num) (v : value) :
  rect m = true -> fits m v -> rect (combine f m v) = true.
Proof.
  intros Hm Hv. destruct v as [|x|n]; simpl in *; [contradiction | now apply amap_rect |].
  destruct Hv as [Hn Hs]. now apply zip_arrays_rect.
Qed.

Lemma combine_shape (f : num -> num -> num) (m : ndarray num) (v : value) :
  fits m v -> array_shape (combine f m v) = array_shape m.
Proof.
  intro Hv. destruct v as [|x|n]; simpl in *; [contradiction | apply amap_shape |].
  destruct Hv as [Hn Hs]. now apply zip_arrays_shape.
Qed.

(** The value of a node with two children. *)
Lemma eval_binary_node (device : option string) (op : opkind) (a b : operand)
    (ma : ndarray num) (vb : value) :
  op = OpAdd \/ op = OpMul ->
  LazyScore._auto_eval device a = Ok (VArray ma) ->
  LazyScore._auto_eval device b = Ok vb ->
  rect ma = true -> fits ma vb ->
  LazyScore._auto_eval device (LazyExpr op [a; b])
  = Ok (VArray (combine (op_fun op) ma vb)).
Proof.
  intros Hop Ea Eb Hm Hv. rewrite eval_node. cbn [mapM]. rewrite Ea, Eb. cbn [bind].
  rewrite (apply_op_binary op _ _ Hop). now apply binary_combine.
Qed.

Lemma eval_clip_node (device : option string) (lo hi : num) (a : operand) (ma : ndarray num) :
  LazyScore._auto_eval device a = Ok (VArray ma) ->
  LazyScore._auto_eval device (LazyExpr (OpClip lo hi) [a])
  = Ok (VArray (amap (fun e => nminimum (nmaximum e lo) hi) ma)).
Proof.
  intro Ea. rewrite eval_node. cbn [mapM]. now rewrite Ea.
Qed.

Lemma evaluates_expression (c : operand) (v : value) :
  is_scalar c = false -> evaluates c v ->
  exists m, v = VArray m /\ rect m = true /\ LazyScore.shape c = Ok (array_shape m).
Proof.
  intros Hc Hv. destruct v as [|x|m]; simpl in Hv.
  - contradiction.
  - congruence.
  - exists m. tauto.
Qed.

Lemma evaluates_fits (a b : operand) (ma : ndarray num) (vb : value) :
  LazyScore.shape a = Ok (array_shape ma) ->
  is_scalar b || same_shape a b = true ->
  evaluates b vb -> fits ma vb.
Proof.
  intros Ha Hsh Hb. destruct vb as [|x|mb]; simpl in *; [contradiction|exact I|].
  destruct Hb as (Sb & Hr & Hs). rewrite Sb in Hsh. simpl in Hsh.
  split; [exact Hr|].
  pose proof (same_shape_eq a b _ Hsh Ha) as E. congruence.
Qed.

(** A well-formed operand evaluates, to a value of its kind and shape. *)
Lemma eval_total (device : option string) (c : operand) :
  wf_operand c = true ->
  exists v, LazyScore._auto_eval device c = Ok v /\ evaluates c v.
Proof.
  intro Hwf. pattern c. revert c Hwf. apply wf_operand_ind.
  - intro x. exists (VScalar x). split; reflexivity.
  - intros m Hm. exists (VArray m). simpl. auto.
  - intros m Hm. exists (VArray m). simpl. auto.
  - intros l Hl. exists (VArray (dense_of l)). simpl.
    rewrite (lowrank_eval device l Hl), dense_of_rect, dense_of_shape. auto.
  - intros op a b Hop Hea Hwa Hwb Hsh (va & Ea & Hva) (vb & Eb & Hvb).
    destruct (evaluates_expression a va (expression_not_scalar a Hea) Hva)
      as (ma & -> & Hm & Hsa).
    pose proof (evaluates_fits a b ma vb Hsa Hsh Hvb) as Hfit.
    exists (VArray (combine (op_fun op) ma vb)).
    split; [now apply eval_binary_node|].
    simpl. rewrite (combine_shape _ ma vb Hfit).
    split; [reflexivity|]. split; [now apply combine_rect | exact Hsa].
  - intros lo hi a Hea Hwa (va & Ea & Hva).
    destruct (evaluates_expression a va (expression_not_scalar a Hea) Hva)
      as (ma & -> & Hm & Hsa).
    exists (VArray (amap (fun e => nminimum (nmaximum e lo) hi) ma)).
    split; [now apply eval_clip_node|].
    simpl. rewrite amap_shape.
    split; [reflexivity|]. split; [now apply amap_rect | exact Hsa].
Qed.

(** ** Sums and products of operands *)

Lemma allclose_refl (n : nat) : allclose n n = true.
Proof.
  unfold allclose. apply Qle_bool_iff.
  assert (E : (inject_Z (Z.of_nat n) - inject_Z (Z.of_nat n) == 0)%Q) by ring.
  rewrite E. change (Qabs 0) with 0%Q.
  pose proof (inject_nat_nonneg n) as Hn.
  apply Qle_trans with (0 + 0)%Q; [discriminate|].
  apply Qplus_le_compat; [discriminate|].
  apply Qmult_le_0_compat; [discriminate | exact Hn].
Qed.

Lemma check_index_columns_Ok (a b : operand) :
  wf_operand a = true -> is_expression a = true ->
  is_scalar b || same_shape a b = true ->
  LazyScore._check_index_columns a b = Ok tt.
Proof.
  intros Hwa Hea Hsh. unfold LazyScore._check_index_columns.
  destruct (is_scalar b); [reflexivity|]. simpl in Hsh.
  unfold same_shape in Hsh.
  destruct (LazyScore.shape a) as [s|]; [|discriminate].
  destruct (LazyScore.shape b) as [o|]; [|discriminate].
  apply andb_true_iff in Hsh as [H1 H2]. apply Nat.eqb_eq in H1, H2.
  cbn [bind]. now rewrite H1, H2, !allclose_refl.
Qed.

Lemma nth_zip_with_lt {A B C : Type} (g : A -> B -> C) (l : list A) (l' : list B)
    (i : nat) (d : A) (d' : B) (d'' : C) :
  length l = length l' -> (i < length l)%nat ->
  nth i (zip_with g l l') d'' = g (nth i l d) (nth i l' d').
Proof.
  intros H Hi. rewrite (zip_with_seq g l l' d d' H).
  rewrite (nth_map_lt _ _ _ 0%nat) by now rewrite length_seq.
  now rewrite seq_nth.
Qed.

Lemma entry_amap (g : num -> num) (m : ndarray num) (i j : nat) :
  rect m = true -> (i < nrows m)%nat -> (j < ncols m)%nat ->
  entry (amap g m) i j = g (entry m i j).
Proof.
  intros Hm Hi Hj. unfold entry, amap. cbn [data].
  rewrite (nth_map_lt _ _ _ []) by exact Hi.
  apply nth_map_lt. now rewrite (rect_nth_length m i Hm Hi).
Qed.

Lemma entry_zip_arrays (f : num -> num -> num) (m n : ndarray num) (i j : nat) :
  rect m = true -> rect n = true -> array_shape n = array_shape m ->
  (i < nrows m)%nat -> (j < ncols m)%nat ->
  entry (zip_arrays f m n) i j = f (entry m i j) (entry n i j).
Proof.
  intros Hm Hn Hs Hi Hj. apply array_shape_inv in Hs as [Hr Hc].
  unfold entry, zip_arrays. cbn [data].
  rewrite (nth_zip_with_lt _ _ _ _ [] []) by (unfold nrows in *; congruence || lia).
  apply nth_zip_with_lt.
  - rewrite (rect_nth_length m i Hm Hi), (rect_nth_length n i Hn); congruence.
  - now rewrite (rect_nth_length m i Hm Hi).
Qed.

Lemma entry_combine (f : num -> num -> num) (m : ndarray num) (v : value) (i j : nat) :
  rect m = true -> fits m v -> (i < nrows m)%nat -> (j < ncols m)%nat ->
  entry (combine f m v) i j = f (entry m i j) (value_entry v i j).
Proof.
  intros Hm Hv Hi Hj. destruct v as [|x|n]; simpl in Hv; [contradiction| |].
  - simpl. now apply (entry_amap (fun e => f e x)).
  - destruct Hv as [Hn Hs]. simpl. now apply entry_zip_arrays.
Qed.

Lemma binary_node_Ok (op : opkind) (a b : operand) :
  wf_operand a = true -> is_expression a = true ->
  is_scalar b || same_shape a b = true ->
  (_ <- LazyScore._check_index_columns a b ;; LazyScore.__init__ op [a; b])
  = Ok (LazyExpr op [a; b]).
Proof.
  intros Hwa Hea Hsh. rewrite (check_index_columns_Ok a b Hwa Hea Hsh). cbn [bind].
  now apply init_expression.
Qed.

(** C4, as the code has it: for a well-formed expression [a] (a low-rank
    matrix or a node) and a well-formed operand [b] that is a scalar or
    has the shape of [a], [a + b] and [a * b] are built, and evaluate to
    arrays of the shape of [a] whose entries are the sums and the products
    of the entries of the evaluated [a] and [b], a scalar being broadcast. *)
Theorem add_mul_eval (a b : operand) (device : option string) :
  wf_expression a = true ->
  wf_operand b = true ->
  is_scalar b || same_shape a b = true ->
  exists ma vb s p ms mp,
    LazyScore._auto_eval device a = Ok (VArray ma)
    /\ LazyScore._auto_eval device b = Ok vb
    /\ py_add a b = Ok s /\ py_mul a b = Ok p
    /\ LazyScore.eval device s = Ok (VArray ms)
    /\ LazyScore.eval device p = Ok (VArray mp)
    /\ array_shape ms = array_shape ma /\ array_shape mp = array_shape ma
    /\ forall i j, (i < nrows ma)%nat -> (j < ncols ma)%nat ->
         entry ms i j = nadd (entry ma i j) (value_entry vb i j)
         /\ entry mp i j = nmul (entry ma i j) (value_entry vb i j).
Proof.
  intros Ha Hwb Hsh. apply andb_true_iff in Ha as [Hea Hwa].
  destruct (eval_total device a Hwa) as (va & Ea & Hva).
  destruct (eval_total device b Hwb) as (vb & Eb & Hvb).
  destruct (evaluates_expression a va (expression_not_scalar a Hea) Hva)
    as (ma & -> & Hm & Hsa).
  pose proof (evaluates_fits a b ma vb Hsa Hsh Hvb) as Hfit.
  exists ma, vb, (LazyExpr OpAdd [a; b]), (LazyExpr OpMul [a; b]),
    (combine nadd ma vb), (combine nmul ma vb).
  split; [exact Ea|]. split; [exact Eb|].
  split; [unfold py_add, LazyScore.__add__; rewrite Hea; now apply binary_node_Ok|].
  split; [unfold py_mul, LazyScore.__mul__; rewrite Hea; now apply binary_node_Ok|].
  split.
  { unfold LazyScore.eval. cbn [is_expression].
    apply (eval_binary_node device OpAdd a b ma vb); auto. }
  split.
  { unfold LazyScore.eval. cbn [is_expression].
    apply (eval_binary_node device OpMul a b ma vb); auto. }
  split; [now apply combine_shape|]. split; [now apply combine_shape|].
  intros i j Hi Hj. split; now apply entry_combine.
Qed.

Lemma add_mul_eval_witness :
  exists ma s ms,
    LazyScore._auto_eval None (LowRankExpr scenario) = Ok (VArray ma)
    /\ py_add (LowRankExpr scenario)
              (Array2d {| ncols := 2; data := [[Fin 1; Fin 2]; [Fin 3; Fin 4]] |}) = Ok s
    /\ LazyScore.eval None s = Ok (VArray ms)
    /\ entry ms 1 1 = nadd (entry ma 1 1) (Fin 4).
Proof.
  destruct (add_mul_eval (LowRankExpr scenario)
              (Array2d {| ncols := 2; data := [[Fin 1; Fin 2]; [Fin 3; Fin 4]] |})
              None eq_refl eq_refl eq_refl)
    as (ma & vb & s & p & ms & mp & Ea & Eb & Es & _ & Ems & _ & _ & _ & H).
  exists ma, s, ms. repeat split; auto.
  simpl in Eb. inversion Eb; subst vb; clear Eb.
  cbn [LazyScore._auto_eval] in Ea.
  rewrite (lowrank_eval None scenario eq_refl) in Ea.
  inversion Ea; subst ma; clear Ea.
  destruct (H 1%nat 1%nat) as [Hadd _].
  - unfold nrows, dense_of, scenario. cbn [data ind_logits map length]. lia.
  - unfold dense_of, scenario. cbn [ncols col_logits]. unfold nrows.
    cbn [data length]. lia.
  - exact Hadd.
Defined.

(** A labelled table can be added, and must be stripped of its labels
    with [values] before the sum is evaluated. *)
Example add_labelled_table :
  let table := DataFrame ["a"; "b"]%string ["x"; "y"]%string false
                 {| ncols := 2; data := [[Fin 1; Fin 2]; [Fin 3; Fin 4]] |} in
  py_add (LowRankExpr scenario) table = Ok (LazyExpr OpAdd [LowRankExpr scenario; table])
  /\ LazyScore.eval None (LazyExpr OpAdd [LowRankExpr scenario; table])
     = Err AssertionError
  /\ LazyScore._auto_values (LazyExpr OpAdd [LowRankExpr scenario; table])
     = Ok scenario_sum.
Proof.
  cbv zeta. split; [reflexivity|]. split; [|reflexivity].
  unfold LazyScore.eval. cbn [is_expression]. rewrite eval_node. cbn [mapM].
  cbn [LazyScore._auto_eval]. rewrite (lowrank_eval None scenario eq_refl).
  reflexivity.
Qed.

(** C4 as stated fails for a scalar on the left of an expression: both
    evaluate, and no sum is built. *)
Lemma add_scalar_left :
  py_add (Scalar (Fin 1)) (LowRankExpr scenario) = Err TypeError
  /\ LazyScore._auto_eval None (Scalar (Fin 1)) = Ok (VScalar (Fin 1))
  /\ LazyScore._auto_eval None (LowRankExpr scenario)
     = Ok (VArray (dense_of scenario)).
Proof.
  split; [reflexivity|]. split; [reflexivity|].
  cbn [LazyScore._auto_eval]. now apply lowrank_eval.
Qed.

(** ** Evaluating row slices *)

Lemma rows_at_amap (g : num -> num) (m : ndarray num) (idx : list nat) :
  rows_at (amap g m) idx = amap g (rows_at m idx).
Proof.
  unfold rows_at, amap. cbn [ncols data]. f_equal.
  rewrite map_map. apply map_ext. intro i.
  change (@nil num) with (map g []) at 1. apply map_nth.
Qed.

Lemma nth_zip_rows (f : num -> num -> num) (l l' : list (list num)) (i : nat) :
  length l = length l' ->
  nth i (zip_with (zip_with f) l l') [] = zip_with f (nth i l []) (nth i l' []).
Proof.
  intro H. destruct (Nat.lt_ge_cases i (length l)) as [Hi|Hi].
  - now apply nth_zip_with_lt.
  - rewrite !nth_overflow; try lia; [reflexivity|].
    rewrite zip_with_length; lia.
Qed.

Lemma rows_at_zip_arrays (f : num -> num -> num) (m n : ndarray num) (idx : list nat) :
  nrows m = nrows n ->
  rows_at (zip_arrays f m n) idx = zip_arrays f (rows_at m idx) (rows_at n idx).
Proof.
  intro H. unfold rows_at, zip_arrays. cbn [ncols data]. f_equal.
  induction idx as [|i idx IH]; simpl; [reflexivity|].
  rewrite IH. f_equal. now apply nth_zip_rows.
Qed.

Lemma rows_at_combine (f : num -> num -> num) (m : ndarray num) (v : value) (idx : list nat) :
  fits m v ->
  rows_at (combine f m v) idx = combine f (rows_at m idx) (value_rows_at v idx).
Proof.
  intro Hv. destruct v as [|x|n]; simpl in *; [contradiction | apply rows_at_amap |].
  destruct Hv as [_ Hs]. apply array_shape_inv in Hs as [Hr _].
  now apply rows_at_zip_arrays.
Qed.

Lemma rows_at_shape_array {A : Type} (m : ndarray A) (idx : list nat) :
  array_shape (rows_at m idx) = (length idx, ncols m).
Proof.
  unfold array_shape. now rewrite rows_at_nrows.
Qed.

Lemma rows_at_fits (m : ndarray num) (v : value) (idx : list nat) :
  fits m v -> Forall (fun i => (i < nrows m)%nat) idx ->
  fits (rows_at m idx) (value_rows_at v idx).
Proof.
  intros Hv Hidx. destruct v as [|x|n]; simpl in *; auto.
  destruct Hv as [Hn Hs]. apply array_shape_inv in Hs as [Hr Hc]. split.
  - apply rows_at_rect; [exact Hn|]. now rewrite Hr.
  - rewrite !rows_at_shape_array. now rewrite Hc.
Qed.

Lemma dense_of_rows_at (l : LowRankDataFrame) (idx : list nat) :
  Forall (fun i => (i < nrows (ind_logits l))%nat) idx ->
  dense_of (lowrank_rows_at l idx) = rows_at (dense_of l) idx.
Proof.
  intro Hidx. unfold dense_of, lowrank_rows_at, rows_at. cbn [ncols data ind_logits col_logits act].
  f_equal. rewrite map_map. apply map_ext_in. intros i Hi.
  rewrite Forall_forall in Hidx. specialize (Hidx i Hi).
  now rewrite (nth_map_lt _ _ _ []) by exact Hidx.
Qed.

Lemma shape_rows (c : operand) (m : ndarray num) (R C : nat) :
  LazyScore.shape c = Ok (array_shape m) -> LazyScore.shape c = Ok (R, C) ->
  nrows m = R /\ ncols m = C.
Proof.
  intros H1 H2. rewrite H1 in H2. unfold array_shape in H2. now inversion H2.
Qed.

(** Evaluating the rows of an operand gives the rows of its evaluation. *)
Lemma eval_rows_at (device : option string) (c : operand) :
  wf_operand c = true ->
  forall (R : nat) (idx : list nat) (v : value),
    (is_scalar c = false -> exists C, LazyScore.shape c = Ok (R, C)) ->
    Forall (fun i => (i < R)%nat) idx ->
    LazyScore._auto_eval device c = Ok v ->
    LazyScore._auto_eval device (operand_rows_at c idx) = Ok (value_rows_at v idx).
Proof.
  intro Hwf. pattern c. revert c Hwf. apply wf_operand_ind.
  - intros x R idx v _ _ E. simpl in *. now inversion E.
  - intros m _ R idx v _ _ E. simpl in *. now inversion E.
  - intros m _ R idx v _ _ E. simpl in *. now inversion E.
  - intros l Hl R idx v Hs Hidx E. destruct (Hs eq_refl) as [C HC].
    inversion HC; subst. cbn [LazyScore._auto_eval operand_rows_at] in *.
    rewrite (lowrank_eval device l Hl) in E. inversion E; subst.
    rewrite (lowrank_eval device _ (lowrank_rows_at_wf l idx Hl Hidx)).
    simpl. now rewrite dense_of_rows_at.
  - intros op a b Hop Hea Hwa Hwb Hsh IHa IHb R idx v Hs Hidx E.
    destruct (Hs eq_refl) as [C HC]. simpl in HC.
    destruct (eval_total device a Hwa) as (va & Ea & Hva).
    destruct (eval_total device b Hwb) as (vb & Eb & Hvb).
    destruct (evaluates_expression a va (expression_not_scalar a Hea) Hva)
      as (ma & -> & Hm & Hsa).
    pose proof (evaluates_fits a b ma vb Hsa Hsh Hvb) as Hfit.
    destruct (shape_rows a ma R C Hsa HC) as [HR _].
    rewrite (eval_binary_node device op a b ma vb Hop Ea Eb Hm Hfit) in E.
    inversion E; subst v; clear E.
    cbn [operand_rows_at map value_rows_at].
    rewrite (rows_at_combine _ ma vb idx Hfit).
    apply eval_binary_node; auto.
    + apply (IHa R idx (VArray ma)); auto; intros _; now exists C.
    + apply (IHb R idx vb); auto; intro Sb; rewrite Sb in Hsh; simpl in Hsh;
        exists C; now apply (same_shape_eq a b).
    + apply rows_at_rect; [exact Hm|]. now rewrite HR.
    + apply rows_at_fits; [exact Hfit|]. now rewrite HR.
  - intros lo hi a Hea Hwa IHa R idx v Hs Hidx E.
    destruct (Hs eq_refl) as [C HC]. simpl in HC.
    destruct (eval_total device a Hwa) as (va & Ea & Hva).
    destruct (evaluates_expression a va (expression_not_scalar a Hea) Hva)
      as (ma & -> & Hm & Hsa).
    rewrite (eval_clip_node device lo hi a ma Ea) in E.
    inversion E; subst v; clear E.
    cbn [operand_rows_at map value_rows_at].
    rewrite rows_at_amap. apply eval_clip_node.
    apply (IHa R idx (VArray ma)); auto; intros _; now exists C.
Qed.

(** ** Collating the row slices of an expression *)

Lemma collate_node (op : opkind) (children D : list operand) :
  LazyScore._auto_collate (LazyExpr op children) D
  = (kids <- mapM LazyScore.children_of D ;;
     collated <- zipM LazyScore._auto_collate children (zip_star kids) ;;
     LazyScore.__init__ op collated).
Proof.
  reflexivity.
Qed.

Lemma zip_with_map_same {A B C D : Type} (g : B -> C -> D) (h : A -> B) (k : A -> C)
    (l : list A) :
  zip_with g (map h l) (map k l) = map (fun x => g (h x) (k x)) l.
Proof.
  induction l as [|x l IH]; simpl; [reflexivity|]. now rewrite IH.
Qed.

(** The children of the elements of a batch, regrouped by position. *)
Lemma zip_star_children {A B : Type} (F : A -> B -> A) (cs : list A) (x : B) (xs : list B) :
  zip_star (map (fun i => map (fun c => F c i) cs) (x :: xs))
  = map (fun c => map (F c) (x :: xs)) cs.
Proof.
  revert x. induction xs as [|y xs IH]; intro x.
  - simpl. now rewrite map_map.
  - change (zip_star (map (fun i => map (fun c => F c i) cs) (x :: y :: xs)))
      with (zip_with cons (map (fun c => F c x) cs)
              (zip_star (map (fun i => map (fun c => F c i) cs) (y :: xs)))).
    rewrite IH. now rewrite zip_with_map_same.
Qed.

Lemma vstack_rows_at {A : Type} (m : ndarray A) (idx : list nat) (idxs : list (list nat)) :
  vstack (map (rows_at m) (idx :: idxs)) = Ok (rows_at m (concat (idx :: idxs))).
Proof.
  cbn [map]. rewrite vstack_Ok.
  - f_equal. apply ndarray_eq; [reflexivity|]. cbn [data].
    change (rows_at m idx :: map (rows_at m) idxs) with (map (rows_at m) (idx :: idxs)).
    rewrite map_map. unfold rows_at. cbn [data]. now rewrite <- concat_map.
  - apply Forall_map, Forall_forall. reflexivity.
Qed.

Lemma collate_rows_at (c : operand) :
  wf_operand c = true ->
  forall (idx : list nat) (idxs : list (list nat)),
    LazyScore._auto_collate (operand_rows_at c idx) (map (operand_rows_at c) (idx :: idxs))
    = Ok (operand_rows_at c (concat (idx :: idxs))).
Proof.
  intro Hwf. pattern c. revert c Hwf. apply wf_operand_ind.
  - reflexivity.
  - intros m _ idx idxs. cbn [operand_rows_at LazyScore._auto_collate].
    rewrite mapM_map.
    rewrite (mapM_Ok_map _ (rows_at m)) by reflexivity.
    cbn [bind]. now rewrite vstack_rows_at.
  - intros m _ idx idxs. cbn [operand_rows_at LazyScore._auto_collate].
    rewrite mapM_map.
    rewrite (mapM_Ok_map _ (rows_at m)) by reflexivity.
    cbn [bind]. now rewrite vstack_rows_at.
  - intros l Hl idx idxs. cbn [operand_rows_at LazyScore._auto_collate].
    rewrite mapM_map.
    rewrite (mapM_Ok_map _ (lowrank_rows_at l)) by reflexivity.
    cbn [bind]. apply wf_lowrank_iff in Hl as (_ & _ & Hk & _ & Hc & Ha).
    now rewrite lowrank_collate_rows_at.
  - intros op a b _ Hea _ _ _ IHa IHb idx idxs.
    cbn [operand_rows_at]. rewrite collate_node, mapM_map.
    rewrite (mapM_Ok_map _ (fun i => map (fun c' => operand_rows_at c' i) [a; b]))
      by reflexivity.
    cbn [bind].
    rewrite (zip_star_children operand_rows_at [a; b] idx idxs).
    change (map (fun c => map (operand_rows_at c) (idx :: idxs)) [a; b])
      with [map (operand_rows_at a) (idx :: idxs); map (operand_rows_at b) (idx :: idxs)].
    change (map (fun c' => operand_rows_at c' idx) [a; b])
      with [operand_rows_at a idx; operand_rows_at b idx].
    cbn [zipM]. rewrite IHa, IHb. cbn [bind].
    change [operand_rows_at a (concat (idx :: idxs)); operand_rows_at b (concat (idx :: idxs))]
      with (map (fun c' => operand_rows_at c' (concat (idx :: idxs))) [a; b]).
    apply init_expression. now rewrite rows_at_is_expression.
  - intros lo hi a Hea _ IHa idx idxs.
    cbn [operand_rows_at]. rewrite collate_node, mapM_map.
    rewrite (mapM_Ok_map _ (fun i => map (fun c' => operand_rows_at c' i) [a]))
      by reflexivity.
    cbn [bind].
    rewrite (zip_star_children operand_rows_at [a] idx idxs).
    change (map (fun c => map (operand_rows_at c) (idx :: idxs)) [a])
      with [map (operand_rows_at a) (idx :: idxs)].
    change (map (fun c' => operand_rows_at c' idx) [a]) with [operand_rows_at a idx].
    cbn [zipM]. rewrite IHa. cbn [bind].
    change [operand_rows_at a (concat (idx :: idxs))]
      with (map (fun c' => operand_rows_at c' (concat (idx :: idxs))) [a]).
    apply init_expression. now rewrite rows_at_is_expression.
Qed.

Lemma collate_fn_rows_at (S : operand) (idx : list nat) (idxs : list (list nat)) :
  wf_expression S = true ->
  LazyScore.collate_fn S (map (operand_rows_at S) (idx :: idxs))
  = Ok (operand_rows_at S (concat (idx :: idxs))).
Proof.
  intro H. apply andb_true_iff in H as [He Hwf].
  pose proof (collate_rows_at S Hwf idx idxs) as E.
  destruct S; try discriminate; exact E.
Qed.

(** ** Batches *)




(** ** Folding an associative operation *)

Section Fold.
Variable f : num -> num -> num.
Hypothesis f_assoc : forall x y z, f x (f y z) = f (f x y) z.


End Fold.




Lemma rows_at_all {A : Type} (m : ndarray A) : rows_at m (seq 0 (nrows m)) = m.
Proof.
  unfold rows_at, nrows. rewrite map_nth_seq. now destruct m.
Qed.

(** ** The aggregation loop *)

Section Aggregation.
Variable f : num -> num -> num.
Hypothesis f_assoc : forall x y z, f x (f y z) = f (f x y) z.
Variable device : option string.
Variables (S : operand) (M : ndarray num) (R C : nat).
Hypothesis S_wf : wf_expression S = true.
Hypothesis S_shape : LazyScore.shape S = Ok (R, C).
Hypothesis S_eval : LazyScore._auto_eval device S = Ok (VArray M).
Hypothesis M_rect : rect M = true.
Hypothesis M_rows : nrows M = R.
Hypothesis M_cols : ncols M = C.
Hypothesis C_pos : (1 <= C)%nat.








End Aggregation.


(** ** The maximum is associative and commutative *)



(** ** Aggregation in batches *)



(** ** Aggregation without rows *)

Lemma recommended_batch_size_no_rows (total_memory : Q) (C : nat) (frac : Q) :
  recommended_batch_size total_memory 0 C frac = 0%Z.
Proof.
  unfold recommended_batch_size. cbn [Z.of_nat].
  set (max := (total_memory / 8 / inject_Z (Z.of_nat C) * frac)%Q).
  assert (E : (inject_Z 0 / max == 0)%Q) by (unfold Qdiv; apply Qmult_0_l).
  rewrite (Qfloor_comp _ _ E). change (Qfloor 0 + 1)%Z with 1%Z.
  reflexivity.
Qed.

(** The loop itself has no check: on no batch it returns [None]. *)
Example score_loop_no_batch (f : num -> num -> num) (device : option string) (S : operand) :
  score_loop f device S None [] = Ok None.
Proof.
  reflexivity.
Qed.

(** C8: the aggregation of an expression without rows does not return:
    the batch size of the heuristic is then 0, which the loader refuses
    (a [ValueError]), and without columns either the heuristic itself
    divides by zero. *)
Theorem score_op_no_rows (f : num -> num -> num) (device : option string)
    (cuda : list positive) (S : operand) (C : nat) :
  LazyScore.shape S = Ok (0%nat, C) ->
  score_op f device cuda S
  = Err (if (C =? 0)%nat then ZeroDivisionError else ValueError).
Proof.
  intro Hshape. unfold score_op, LazyScore.batch_size. rewrite Hshape. cbn [bind].
  destruct C as [|C].
  - unfold get_batch_size. now rewrite py_div_zero.
  - rewrite get_batch_size_steps; [|lia|reflexivity].
    rewrite py_int_floor by (apply rows_per_max_nonneg, max_rows_pos; [lia|reflexivity]).
    change (Qceiling _)
      with (recommended_batch_size (reported_total_memory cuda) 0 (Datatypes.S C) (1 # 10)).
    rewrite recommended_batch_size_no_rows. reflexivity.
Qed.

Lemma score_op_no_rows_witness :
  score_op nmaximum None [] (LowRankExpr no_rows) = Err ValueError.
Proof.
  exact (score_op_no_rows nmaximum None [] (LowRankExpr no_rows) 2 eq_refl).
Defined.

(** * Further properties of the code *)

(** ** The batch size and the memory bound *)






(** ** The activations are not negative *)

Lemma activation_range (name : string) (z : num) :
  name = "exp"%string \/ name = "sigmoid"%string ->
  nonnegative (activation name z)
  /\ (name = "sigmoid"%string -> at_most_one (activation name z)).
Proof.
  intros [-> | ->]; (split; [|intro E; try discriminate E]).
  - destruct z as [r| | |]; simpl; auto; try lra.
    pose proof (exp_pos r). lra.
  - unfold activation. simpl String.eqb. cbv iota.
    destruct z as [r| | |].
    + rewrite sigmoid_finite. simpl. pose proof (exp_pos (- r)) as He.
      unfold Rdiv. rewrite Rmult_1_l.
      apply Rlt_le, Rinv_0_lt_compat. lra.
    + unfold sigmoid. simpl. rewrite Rsign_pos by lra. simpl.
      replace (1 / (1 + 0))%R with 1%R by (field; lra). lra.
    + unfold sigmoid. simpl. lra.
    + exact I.
  - unfold activation. simpl String.eqb. cbv iota.
    destruct z as [r| | |].
    + rewrite sigmoid_finite. simpl. pose proof (exp_pos (- r)) as He.
      unfold Rdiv. rewrite Rmult_1_l. rewrite <- Rinv_1 at 2.
      apply Rinv_le_contravar; lra.
    + unfold sigmoid. simpl. rewrite Rsign_pos by lra. simpl.
      replace (1 / (1 + 0))%R with 1%R by (field; lra). lra.
    + unfold sigmoid. simpl. lra.
    + exact I.
Qed.

(** X3: no entry of an evaluated low-rank matrix is negative (it is a
    real from 0 on, [+inf] or NaN), and under [sigmoid] none is above 1:
    what the assertion on [act] is for. *)
Theorem lowrank_eval_nonnegative (device : option string) (l : LowRankDataFrame) :
  wf_lowrank l = true ->
  exists m,
    LowRank.eval device l = Ok (VArray m)
    /\ forall i j, (i < nrows m)%nat -> (j < ncols m)%nat ->
         nonnegative (entry m i j)
         /\ (act l = "sigmoid"%string -> at_most_one (entry m i j)).
Proof.
  intro Hl. exists (dense_of l). split; [now apply lowrank_eval|].
  intros i j Hi Hj.
  assert (Hi' : (i < nrows (ind_logits l))%nat).
  { unfold nrows, dense_of in Hi. cbn [data] in Hi. now rewrite length_map in Hi. }
  rewrite (dense_of_entry l i j Hl Hi' Hj).
  apply activation_range. apply check_act_cases.
  now apply wf_lowrank_iff in Hl.
Qed.

Lemma lowrank_eval_nonnegative_witness :
  exists m,
    LowRank.eval None seven_by_three = Ok (VArray m)
    /\ nonnegative (entry m 6 2) /\ at_most_one (entry m 6 2).
Proof.
  destruct (lowrank_eval_nonnegative None seven_by_three eq_refl) as (m & E & H).
  exists m. split; [exact E|].
  assert (Em : m = dense_of seven_by_three).
  { rewrite (lowrank_eval None seven_by_three eq_refl) in E. now inversion E. }
  destruct (H 6%nat 2%nat) as [Hn Ho].
  - rewrite Em. unfold nrows, dense_of, seven_by_three. cbn [data ind_logits map length]. lia.
  - rewrite Em. unfold dense_of, seven_by_three. cbn [ncols col_logits]. unfold nrows.
    cbn [data length]. lia.
  - split; [exact Hn | now apply Ho].
Defined.

(** ** Slicing an expression *)

Lemma mapM_np_index_total (n : nat) (ks : list Z) :
  Forall (fun i => (- Z.of_nat n <= i < Z.of_nat n)%Z) ks ->
  exists idx, mapM (np_index n) ks = Ok idx.
Proof.
  induction 1 as [|k ks Hk _ [idx IH]].
  - now exists [].
  - assert (Ek : exists i, np_index n k = Ok i).
    { unfold np_index.
      destruct ((0 <=? k)%Z && (k <? Z.of_nat n)%Z) eqn:E1; [eauto|].
      destruct ((- Z.of_nat n <=? k)%Z && (k <? 0)%Z) eqn:E2; [eauto|].
      apply andb_false_iff in E1, E2.
      rewrite Z.leb_gt, Z.ltb_ge in E1. rewrite Z.leb_gt, Z.ltb_ge in E2. lia. }
    destruct Ek as [i Ei]. exists (i :: idx). simpl. now rewrite Ei, IH.
Qed.

(** X4: evaluation commutes with row slicing: for a well-formed expression
    and a key whose indices are rows (negative indices counting from the
    end), the slice is built, is well formed, and evaluates to the rows of
    the evaluated expression at the key. *)
Theorem eval_getitem (device : option string) (S : operand) (k : key) (R C : nat) :
  wf_expression S = true ->
  LazyScore.shape S = Ok (R, C) ->
  Forall (fun i => (- Z.of_nat R <= i < Z.of_nat R)%Z) (normalize_key k) ->
  exists S' m m',
    LazyScore.__getitem__ S k = Ok S'
    /\ wf_expression S' = true
    /\ LazyScore.eval device S = Ok (VArray m)
    /\ take_rows m (normalize_key k) = Ok m'
    /\ LazyScore.eval device S' = Ok (VArray m').
Proof.
  intros HS Hshape Hk. apply andb_true_iff in HS as [He Hwf].
  destruct (mapM_np_index_total R _ Hk) as [idx Eidx].
  pose proof (mapM_np_index_lt R _ idx Eidx) as Hidx.
  assert (Hsh : is_scalar S = false -> exists C0, LazyScore.shape S = Ok (R, C0))
    by (intros _; now exists C).
  destruct (eval_total device S Hwf) as (v & Ev & Hv).
  destruct (evaluates_expression S v (expression_not_scalar S He) Hv)
    as (m & -> & Hm & Hsm).
  destruct (shape_rows S m R C Hsm Hshape) as [Hrows _].
  exists (operand_rows_at S idx), m, (rows_at m idx).
  split.
  { unfold LazyScore.__getitem__. rewrite He.
    now apply (getitem_rows_at S Hwf R). }
  split.
  { unfold wf_expression. rewrite rows_at_is_expression, He. simpl.
    now apply (rows_at_wf S idx Hwf R). }
  split; [unfold LazyScore.eval; now rewrite He|].
  split; [apply take_rows_at; now rewrite Hrows|].
  unfold LazyScore.eval. rewrite rows_at_is_expression, He.
  now apply (eval_rows_at device S Hwf R idx (VArray m)).
Qed.

Lemma eval_getitem_witness :
  exists S' m m',
    LazyScore.__getitem__ scenario_sum (KInt (-1)) = Ok S'
    /\ LazyScore.eval None scenario_sum = Ok (VArray m)
    /\ take_rows m [(-1)%Z] = Ok m'
    /\ LazyScore.eval None S' = Ok (VArray m').
Proof.
  destruct (eval_getitem None scenario_sum (KInt (-1)) 2 2 eq_refl eq_refl)
    as (S' & m & m' & E & _ & Em & Et & Es).
  - constructor; [simpl; lia | constructor].
  - exists S', m, m'. auto.
Defined.

Lemma mapM_np_index_bad (n : nat) (ks : list Z) :
  Exists (fun i => (i < - Z.of_nat n \/ Z.of_nat n <= i)%Z) ks ->
  mapM (np_index n) ks = Err IndexError.
Proof.
  induction ks as [|k ks IH]; intro H; [inversion H|].
  simpl. destruct (np_index n k) as [i|e] eqn:E.
  - assert (Hbad : Exists (fun i0 => (i0 < - Z.of_nat n \/ Z.of_nat n <= i0)%Z) ks).
    { inversion H as [? ? Hk|]; subst; [|assumption].
      apply np_index_lt in E as Hi. unfold np_index in E.
      destruct ((0 <=? k)%Z && (k <? Z.of_nat n)%Z) eqn:E1.
      - apply andb_true_iff in E1 as [E1 E2]. apply Z.leb_le in E1.
        apply Z.ltb_lt in E2. lia.
      - destruct ((- Z.of_nat n <=? k)%Z && (k <? 0)%Z) eqn:E2; [|discriminate].
        apply andb_true_iff in E2 as [E2 E3]. apply Z.leb_le in E2.
        apply Z.ltb_lt in E3. lia. }
    simpl. now rewrite (IH Hbad).
  - unfold np_index in E.
    destruct ((0 <=? k)%Z && (k <? Z.of_nat n)%Z); [discriminate|].
    destruct ((- Z.of_nat n <=? k)%Z && (k <? 0)%Z); [discriminate|].
    now inversion E.
Qed.

Lemma take_rows_bad {A : Type} (m : ndarray A) (ks : list Z) :
  Exists (fun i => (i < - Z.of_nat (nrows m) \/ Z.of_nat (nrows m) <= i)%Z) ks ->
  take_rows m ks = Err IndexError.
Proof.
  intro H. unfold take_rows, take. fold (nrows m).
  now rewrite (mapM_np_index_bad _ _ H).
Qed.

Lemma auto_getitem_out_of_range (c : operand) :
  wf_operand c = true ->
  forall (R C : nat) (ks : list Z),
    is_scalar c = false ->
    LazyScore.shape c = Ok (R, C) ->
    Exists (fun i => (i < - Z.of_nat R \/ Z.of_nat R <= i)%Z) ks ->
    LazyScore._auto_getitem c ks = Err IndexError.
Proof.
  intro Hwf. pattern c. revert c Hwf. apply wf_operand_ind.
  - discriminate.
  - intros m _ R C ks _ Hs H. inversion Hs; subst. simpl.
    now rewrite (take_rows_bad m ks H).
  - intros m _ R C ks _ Hs H. inversion Hs; subst. simpl.
    now rewrite (take_rows_bad m ks H).
  - intros l _ R C ks _ Hs H. inversion Hs; subst. simpl.
    unfold LowRank.__getitem__. simpl normalize_key.
    now rewrite (take_rows_bad _ ks H).
  - intros op a b _ Hea _ _ _ IHa _ R C ks _ Hs H. simpl in Hs.
    rewrite getitem_node. cbn [mapM].
    now rewrite (IHa R C ks (expression_not_scalar a Hea) Hs H).
  - intros lo hi a Hea _ IHa R C ks _ Hs H. simpl in Hs.
    rewrite getitem_node. cbn [mapM].
    now rewrite (IHa R C ks (expression_not_scalar a Hea) Hs H).
Qed.

(** X5: slicing a well-formed expression by a key with an index that is
    not a row (at or beyond the number of rows, or below its negative)
    raises [IndexError]. *)
Theorem getitem_out_of_range (S : operand) (k : key) (R C : nat) :
  wf_expression S = true ->
  LazyScore.shape S = Ok (R, C) ->
  Exists (fun i => (i < - Z.of_nat R \/ Z.of_nat R <= i)%Z) (normalize_key k) ->
  LazyScore.__getitem__ S k = Err IndexError.
Proof.
  intros HS Hshape H. apply andb_true_iff in HS as [He Hwf].
  unfold LazyScore.__getitem__. rewrite He.
  now apply (auto_getitem_out_of_range S Hwf R C _ (expression_not_scalar S He)).
Qed.

Lemma getitem_out_of_range_witness :
  LazyScore.__getitem__ scenario_sum (KInt 2) = Err IndexError
  /\ LazyScore.__getitem__ scenario_sum (KList [0; -3]%Z) = Err IndexError.
Proof.
  split.
  - apply (getitem_out_of_range scenario_sum (KInt 2) 2 2 eq_refl eq_refl).
    constructor. simpl. lia.
  - apply (getitem_out_of_range scenario_sum (KList [0; -3]%Z) 2 2 eq_refl eq_refl).
    apply Exists_cons_tl. constructor. simpl. lia.
Defined.

(** ** Collating the slices of an expression *)

Lemma operand_rows_at_all (c : operand) :
  wf_operand c = true ->
  forall R,
    (is_scalar c = false -> exists C, LazyScore.shape c = Ok (R, C)) ->
    operand_rows_at c (seq 0 R) = c.
Proof.
  intro Hwf. pattern c. revert c Hwf. apply wf_operand_ind.
  - reflexivity.
  - intros m _ R Hs. destruct (Hs eq_refl) as [C HC]. inversion HC; subst.
    simpl. now rewrite rows_at_all.
  - intros m _ R Hs. destruct (Hs eq_refl) as [C HC]. inversion HC; subst.
    simpl. now rewrite rows_at_all.
  - intros l Hl R Hs. destruct (Hs eq_refl) as [C HC]. inversion HC; subst.
    simpl. apply wf_lowrank_iff in Hl as (_ & _ & _ & Hi & _).
    now rewrite lowrank_rows_at_all.
  - intros op a b _ Hea Hwa _ Hsh IHa IHb R Hs.
    destruct (Hs eq_refl) as [C HC]. simpl in HC.
    cbn [operand_rows_at map]. rewrite (IHa R) by (intros _; now exists C).
    rewrite (IHb R); [reflexivity|].
    intro Sb. rewrite Sb in Hsh. simpl in Hsh. exists C.
    now apply (same_shape_eq a b).
  - intros lo hi a Hea Hwa IHa R Hs.
    destruct (Hs eq_refl) as [C HC]. simpl in HC.
    cbn [operand_rows_at map]. now rewrite (IHa R) by (intros _; now exists C).
Qed.

(** X6: the row slices of a well-formed expression, a low-rank matrix or
    a node over scalars, arrays and expressions, for any split of its row
    indices into batches, collate to the expression itself. *)
Theorem collate_expression_slices (S : operand) (parts : list (list Z)) (R C : nat) :
  wf_expression S = true ->
  LazyScore.shape S = Ok (R, C) ->
  parts <> [] ->
  concat parts = map Z.of_nat (seq 0 R) ->
  exists slices,
    mapM (fun ks => LazyScore.__getitem__ S (KList ks)) parts = Ok slices
    /\ LazyScore.collate_fn S slices = Ok S.
Proof.
  intros HS Hshape Hne Hcat. pose proof HS as HS'.
  apply andb_true_iff in HS' as [He Hwf].
  assert (Hsh : is_scalar S = false -> exists C0, LazyScore.shape S = Ok (R, C0))
    by (intros _; now exists C).
  exists (map (fun ks => operand_rows_at S (map Z.to_nat ks)) parts). split.
  - apply mapM_Ok_map. intros ks Hks.
    unfold LazyScore.__getitem__. rewrite He. simpl normalize_key.
    apply (getitem_rows_at S Hwf R); [exact Hsh|].
    apply mapM_Ok_map. intros k Hk. apply np_index_in_range.
    assert (Hin : In k (concat parts)) by (apply in_concat; eauto).
    rewrite Hcat in Hin. apply in_map_iff in Hin as (i & <- & Hi).
    apply in_seq in Hi. lia.
  - destruct parts as [|p ps]; [contradiction|].
    rewrite <- (map_map (map Z.to_nat) (operand_rows_at S)).
    change (map (map Z.to_nat) (p :: ps))
      with (map Z.to_nat p :: map (map Z.to_nat) ps).
    rewrite (collate_fn_rows_at S _ _ HS). f_equal.
    change (map Z.to_nat p :: map (map Z.to_nat) ps)
      with (map (map Z.to_nat) (p :: ps)).
    rewrite <- concat_map, Hcat, map_map.
    rewrite (map_ext _ (fun i => i)) by apply Nat2Z.id.
    rewrite map_id. now apply operand_rows_at_all.
Qed.

Lemma collate_expression_slices_witness :
  exists slices,
    mapM (fun ks => LazyScore.__getitem__ scenario_sum (KList ks)) [[0%Z]; [1%Z]]
    = Ok slices
    /\ LazyScore.collate_fn scenario_sum slices = Ok scenario_sum.
Proof.
  apply (collate_expression_slices scenario_sum [[0%Z]; [1%Z]] 2 2 eq_refl eq_refl).
  - discriminate.
  - reflexivity.
Defined.

(** ** Evaluating a transposed expression *)

Lemma columns_of_table {A B C : Type} (g : A -> B -> C) (rows : list A) (cols : list B) :
  columns_of (length cols) (map (fun r => map (g r) cols) rows)
  = map (fun c => map (fun r => g r c) rows) cols.
Proof.
  induction rows as [|r rows IH]; simpl.
  - symmetry. apply map_const.
  - rewrite IH. apply zip_with_map_same.
Qed.

Lemma zip_cons_map {A : Type} (g : A -> A) (r : list A) (cs : list (list A)) :
  zip_with cons (map g r) (map (map g) cs) = map (map g) (zip_with cons r cs).
Proof.
  revert cs; induction r as [|x r IH]; intros [|c cs]; simpl; try reflexivity.
  now rewrite IH.
Qed.

Lemma columns_of_map {A : Type} (g : A -> A) (w : nat) (rows : list (list A)) :
  columns_of w (map (map g) rows) = map (map g) (columns_of w rows).
Proof.
  induction rows as [|r rows IH]; simpl.
  - induction w as [|w IHw]; simpl; [reflexivity|]. now rewrite <- IHw.
  - rewrite IH. apply zip_cons_map.
Qed.

Lemma zip_cons_zip {A : Type} (f : A -> A -> A) (a b : list A) (c d : list (list A)) :
  zip_with cons (zip_with f a b) (zip_with (zip_with f) c d)
  = zip_with (zip_with f) (zip_with cons a c) (zip_with cons b d).
Proof.
  revert b c d; induction a as [|x a IH]; intros [|y b] [|u c] [|v d]; simpl;
    try reflexivity.
  now rewrite IH.
Qed.

Lemma columns_of_zip {A : Type} (f : A -> A -> A) (w : nat) (r1 r2 : list (list A)) :
  length r1 = length r2 ->
  columns_of w (zip_with (zip_with f) r1 r2)
  = zip_with (zip_with f) (columns_of w r1) (columns_of w r2).
Proof.
  revert r2; induction r1 as [|x r1 IH]; intros [|y r2] H; simpl in *;
    try discriminate.
  - induction w as [|w IHw]; simpl; [reflexivity|]. now rewrite <- IHw.
  - rewrite IH by congruence. apply zip_cons_zip.
Qed.

Lemma transpose_amap (g : num -> num) (m : ndarray num) :
  transpose (amap g m) = amap g (transpose m).
Proof.
  unfold transpose, amap, nrows. cbn [ncols data].
  rewrite length_map. f_equal. apply columns_of_map.
Qed.

Lemma transpose_zip_arrays (f : num -> num -> num) (m n : ndarray num) :
  array_shape n = array_shape m ->
  transpose (zip_arrays f m n) = zip_arrays f (transpose m) (transpose n).
Proof.
  intro Hs. apply array_shape_inv in Hs as [Hr Hc]. unfold nrows in Hr.
  unfold transpose, zip_arrays, nrows. cbn [ncols data].
  rewrite zip_with_length by congruence. f_equal.
  rewrite Hc. apply columns_of_zip. congruence.
Qed.

Lemma transpose_combine (f : num -> num -> num) (m : ndarray num) (v : value) :
  fits m v ->
  transpose (combine f m v) = combine f (transpose m) (value_transposed v).
Proof.
  intro Hv. destruct v as [|x|n]; simpl in *; [contradiction | apply transpose_amap |].
  destruct Hv as [_ Hs]. now apply transpose_zip_arrays.
Qed.

Lemma transpose_shape {A : Type} (m : ndarray A) :
  rect m = true -> array_shape (transpose m) = (ncols m, nrows m).
Proof.
  intro H. unfold array_shape. now rewrite (transpose_nrows m H).
Qed.

Lemma transpose_fits (m : ndarray num) (v : value) :
  rect m = true -> fits m v -> fits (transpose m) (value_transposed v).
Proof.
  intros Hm Hv. destruct v as [|x|n]; simpl in *; auto.
  destruct Hv as [Hn Hs]. apply array_shape_inv in Hs as [Hr Hc].
  split; [apply transpose_rect|].
  rewrite !transpose_shape by assumption. congruence.
Qed.

Lemma nmul_comm (x y : num) : nmul x y = nmul y x.
Proof.
  destruct x, y; simpl; try reflexivity. f_equal. apply Rmult_comm.
Qed.

Lemma dot_comm (u v : list num) : dot u v = dot v u.
Proof.
  unfold dot. f_equal. revert v.
  induction u as [|x u IH]; intros [|y v]; simpl; try reflexivity.
  now rewrite nmul_comm, IH.
Qed.

Lemma dense_of_transposed (l : LowRankDataFrame) :
  dense_of (transposed_lowrank l) = transpose (dense_of l).
Proof.
  unfold dense_of, transposed_lowrank, transpose, nrows.
  cbn [ncols data ind_logits col_logits act].
  rewrite length_map. f_equal.
  rewrite (columns_of_table (fun r c => activation (act l) (dot r c))).
  apply map_ext. intro c. apply map_ext. intro r. now rewrite dot_comm.
Qed.

Lemma transposed_lowrank_wf (l : LowRankDataFrame) :
  wf_lowrank l = true -> wf_lowrank (transposed_lowrank l) = true.
Proof.
  intro H. apply (lowrank_T_wf l); [exact H|]. now apply lowrank_T.
Qed.

Lemma transposed_is_expression (c : operand) :
  is_expression (operand_transposed c) = is_expression c.
Proof.
  destruct c; reflexivity.
Qed.

Lemma transposed_is_scalar (c : operand) :
  is_scalar (operand_transposed c) = is_scalar c.
Proof.
  destruct c; reflexivity.
Qed.

Lemma T_transposed (c : operand) :
  wf_operand c = true -> is_scalar c = false ->
  LazyScore.T c = Ok (operand_transposed c).
Proof.
  intro Hwf. pattern c. revert c Hwf. apply wf_operand_ind.
  - discriminate.
  - reflexivity.
  - reflexivity.
  - intros l Hl _. simpl. now rewrite (lowrank_T l Hl).
  - intros op a b _ Hea _ _ _ IHa IHb _.
    rewrite T_node. cbn [mapM].
    rewrite (expression_not_scalar a Hea), (IHa (expression_not_scalar a Hea)).
    cbn [bind].
    assert (Eb : (if is_scalar b then Ok b else LazyScore.T b) = Ok (operand_transposed b)).
    { destruct (is_scalar b) eqn:Sb; [|now apply IHb].
      destruct b; try discriminate; reflexivity. }
    rewrite Eb. cbn [bind].
    apply init_expression. now rewrite transposed_is_expression.
  - intros lo hi a Hea _ IHa _.
    rewrite T_node. cbn [mapM].
    rewrite (expression_not_scalar a Hea), (IHa (expression_not_scalar a Hea)).
    cbn [bind]. apply init_expression. now rewrite transposed_is_expression.
Qed.

Lemma transposed_shape (c : operand) :
  wf_operand c = true ->
  forall R C, LazyScore.shape c = Ok (R, C) ->
  LazyScore.shape (operand_transposed c) = Ok (C, R).
Proof.
  intro Hwf. pattern c. revert c Hwf. apply wf_operand_ind.
  - discriminate.
  - intros m Hm R C H. inversion H; subst. simpl. now rewrite transpose_shape.
  - intros m Hm R C H. inversion H; subst. simpl. now rewrite transpose_shape.
  - intros l _ R C H. inversion H; subst. reflexivity.
  - intros op a b _ _ _ _ _ IHa _ R C H. simpl in *. now apply IHa.
  - intros lo hi a _ _ IHa R C H. simpl in *. now apply IHa.
Qed.

Lemma shape_total (c : operand) :
  wf_operand c = true -> is_scalar c = false ->
  exists R C, LazyScore.shape c = Ok (R, C).
Proof.
  intros Hwf Hs. destruct (eval_total None c Hwf) as (v & _ & Hv).
  destruct (evaluates_expression c v Hs Hv) as (m & _ & _ & E).
  now exists (nrows m), (ncols m).
Qed.

Lemma transposed_wf (c : operand) :
  wf_operand c = true -> wf_operand (operand_transposed c) = true.
Proof.
  intro Hwf. pattern c. revert c Hwf. apply wf_operand_ind.
  - reflexivity.
  - intros m _. simpl. apply transpose_rect.
  - intros m _. simpl. apply transpose_rect.
  - intros l Hl. simpl. now apply transposed_lowrank_wf.
  - intros op a b Hop Hea Hwa Hwb Hsh IHa IHb.
    assert (Sh : is_scalar (operand_transposed b)
                 || same_shape (operand_transposed a) (operand_transposed b) = true).
    { rewrite transposed_is_scalar. destruct (is_scalar b) eqn:Sb; [reflexivity|].
      simpl in *.
      destruct (shape_total a Hwa (expression_not_scalar a Hea)) as (R & C & Ea).
      pose proof (same_shape_eq a b _ Hsh Ea) as Eb.
      unfold same_shape.
      rewrite (transposed_shape a Hwa R C Ea), (transposed_shape b Hwb R C Eb).
      simpl. now rewrite !Nat.eqb_refl. }
    destruct Hop; subst op; cbn [operand_transposed map wf_operand];
      rewrite transposed_is_expression, Hea, IHa, IHb; simpl; exact Sh.
  - intros lo hi a Hea Hwa IHa.
    cbn [operand_transposed map wf_operand].
    now rewrite transposed_is_expression, Hea, IHa.
Qed.

Lemma eval_transposed (device : option string) (c : operand) :
  wf_operand c = true ->
  forall v, LazyScore._auto_eval device c = Ok v ->
  LazyScore._auto_eval device (operand_transposed c) = Ok (value_transposed v).
Proof.
  intro Hwf. pattern c. revert c Hwf. apply wf_operand_ind.
  - intros x v E. simpl in *. now inversion E.
  - intros m _ v E. simpl in *. now inversion E.
  - intros m _ v E. simpl in *. now inversion E.
  - intros l Hl v E. cbn [LazyScore._auto_eval operand_transposed] in *.
    rewrite (lowrank_eval device l Hl) in E. inversion E; subst.
    rewrite (lowrank_eval device _ (transposed_lowrank_wf l Hl)).
    simpl. now rewrite dense_of_transposed.
  - intros op a b Hop Hea Hwa Hwb Hsh IHa IHb v E.
    destruct (eval_total device a Hwa) as (va & Ea & Hva).
    destruct (eval_total device b Hwb) as (vb & Eb & Hvb).
    destruct (evaluates_expression a va (expression_not_scalar a Hea) Hva)
      as (ma & -> & Hm & Hsa).
    pose proof (evaluates_fits a b ma vb Hsa Hsh Hvb) as Hfit.
    rewrite (eval_binary_node device op a b ma vb Hop Ea Eb Hm Hfit) in E.
    inversion E; subst v; clear E.
    cbn [operand_transposed map value_transposed].
    rewrite (transpose_combine _ ma vb Hfit).
    apply eval_binary_node; auto.
    + now apply (IHa (VArray ma)).
    + apply transpose_rect.
    + now apply transpose_fits.
  - intros lo hi a Hea Hwa IHa v E.
    destruct (eval_total device a Hwa) as (va & Ea & Hva).
    destruct (evaluates_expression a va (expression_not_scalar a Hea) Hva)
      as (ma & -> & Hm & Hsa).
    rewrite (eval_clip_node device lo hi a ma Ea) in E.
    inversion E; subst v; clear E.
    cbn [operand_transposed map value_transposed].
    rewrite transpose_amap. apply eval_clip_node.
    now apply (IHa (VArray ma)).
Qed.

(** X7: the transpose of a well-formed expression is built, is well
    formed, has the shape swapped, and evaluates to the transpose of the
    evaluated expression. *)
Theorem eval_transpose (device : option string) (S : operand) (R C : nat) :
  wf_expression S = true ->
  LazyScore.shape S = Ok (R, C) ->
  exists S' m,
    LazyScore.T S = Ok S'
    /\ wf_expression S' = true
    /\ LazyScore.shape S' = Ok (C, R)
    /\ LazyScore.eval device S = Ok (VArray m)
    /\ LazyScore.eval device S' = Ok (VArray (transpose m)).
Proof.
  intros HS Hshape. apply andb_true_iff in HS as [He Hwf].
  destruct (eval_total device S Hwf) as (v & Ev & Hv).
  destruct (evaluates_expression S v (expression_not_scalar S He) Hv)
    as (m & -> & Hm & Hsm).
  exists (operand_transposed S), m.
  split; [apply T_transposed; auto; now apply expression_not_scalar|].
  split.
  { unfold wf_expression. rewrite transposed_is_expression, He. simpl.
    now apply transposed_wf. }
  split; [now apply transposed_shape|].
  split; [unfold LazyScore.eval; now rewrite He|].
  unfold LazyScore.eval. rewrite transposed_is_expression, He.
  now apply (eval_transposed device S Hwf (VArray m)).
Qed.

Lemma eval_transpose_witness :
  exists S' m,
    LazyScore.T scenario_sum = Ok S'
    /\ LazyScore.shape S' = Ok (2%nat, 2%nat)
    /\ LazyScore.eval None scenario_sum = Ok (VArray m)
    /\ LazyScore.eval None S' = Ok (VArray (transpose m)).
Proof.
  destruct (eval_transpose None scenario_sum 2 2 eq_refl eq_refl)
    as (S' & m & E & _ & Hs & Em & Et).
  exists S', m. auto.
Defined.

(** ** The shape check of the operators *)

Lemma allclose_small (a b : nat) :
  (Z.of_nat b < 100000)%Z -> allclose a b = (a =? b)%nat.
Proof.
  intro Hb. destruct (Nat.eqb_spec a b) as [->|Hne]; [apply allclose_refl|].
  apply not_true_is_false. intro H. unfold allclose in H.
  apply Qle_bool_iff, Qabs_Qle_condition in H. destruct H as [H1 H2].
  unfold Qle, Qplus, Qminus, Qopp, Qmult, inject_Z in H1, H2.
  cbn -[Z.mul Z.add Z.opp Z.of_nat] in H1, H2. lia.
Qed.

Lemma allclose_succ (b : nat) :
  (100000 <= Z.of_nat b)%Z -> allclose (S b) b = true.
Proof.
  intro Hb. unfold allclose.
  apply Qle_bool_iff, Qabs_Qle_condition.
  rewrite Nat2Z.inj_succ.
  split; unfold Qle, Qplus, Qminus, Qopp, Qmult, inject_Z;
    cbn -[Z.mul Z.add Z.opp Z.of_nat Z.succ]; lia.
Qed.

(** X8: between an expression and an operand that is not a scalar, with
    fewer than 100000 rows and fewer than 100000 columns, [__add__] and
    [__mul__] build the node when the two shapes are equal and raise
    AssertionError when they differ. *)
Theorem add_mul_shape_check (self other : operand) (s o : nat * nat) :
  is_expression self = true -> is_scalar other = false ->
  LazyScore.shape self = Ok s -> LazyScore.shape other = Ok o ->
  (Z.of_nat (fst o) < 100000)%Z -> (Z.of_nat (snd o) < 100000)%Z ->
  (s = o ->
   LazyScore.__add__ self other = Ok (LazyExpr OpAdd [self; other])
   /\ LazyScore.__mul__ self other = Ok (LazyExpr OpMul [self; other]))
  /\ (s <> o ->
      LazyScore.__add__ self other = Err AssertionError
      /\ LazyScore.__mul__ self other = Err AssertionError).
Proof.
  intros He Hsc Hs Ho H1 H2.
  unfold LazyScore.__add__, LazyScore.__mul__, LazyScore._check_index_columns.
  rewrite Hsc, Hs, Ho. cbn [bind].
  rewrite (allclose_small (fst s) (fst o) H1), (allclose_small (snd s) (snd o) H2).
  split.
  - intros ->. rewrite !Nat.eqb_refl. cbn [andb bind].
    rewrite !(init_expression _ self _ He). auto.
  - intro Hne.
    assert (E : ((fst s =? fst o)%nat && (snd s =? snd o)%nat) = false).
    { apply not_true_is_false. intro E. apply andb_true_iff in E as [E1 E2].
      apply Nat.eqb_eq in E1, E2. apply Hne.
      destruct s, o; simpl in *; congruence. }
    rewrite E. auto.
Qed.

Lemma add_mul_shape_check_witness :
  LazyScore.__add__ (LowRankExpr scenario) (LowRankExpr seven_by_three)
  = Err AssertionError
  /\ LazyScore.__mul__ scenario_sum (LowRankExpr scenario)
     = Ok (LazyExpr OpMul [scenario_sum; LowRankExpr scenario]).
Proof.
  split.
  - apply (add_mul_shape_check (LowRankExpr scenario) (LowRankExpr seven_by_three)
             (2%nat, 2%nat) (7%nat, 3%nat) eq_refl eq_refl eq_refl eq_refl);
      [simpl; lia | simpl; lia | discriminate].
  - apply (add_mul_shape_check scenario_sum (LowRankExpr scenario)
             (2%nat, 2%nat) (2%nat, 2%nat) eq_refl eq_refl eq_refl eq_refl);
      [simpl; lia | simpl; lia | reflexivity].
Defined.

(** X9: the shape check compares with the tolerance of [np.allclose]:
    from 100000 rows on, an operand with one row less than the expression
    passes it, and [__add__] and [__mul__] build the node. *)
Theorem add_mul_shape_tolerance (self other : operand) (n c : nat) :
  is_expression self = true -> is_scalar other = false ->
  LazyScore.shape self = Ok (S n, c) -> LazyScore.shape other = Ok (n, c) ->
  (100000 <= Z.of_nat n)%Z ->
  LazyScore.__add__ self other = Ok (LazyExpr OpAdd [self; other])
  /\ LazyScore.__mul__ self other = Ok (LazyExpr OpMul [self; other]).
Proof.
  intros He Hsc Hs Ho Hn.
  unfold LazyScore.__add__, LazyScore.__mul__, LazyScore._check_index_columns.
  rewrite Hsc, Hs, Ho. cbn [bind fst snd].
  rewrite (allclose_succ n Hn), allclose_refl. cbn [andb bind].
  rewrite !(init_expression _ self _ He). auto.
Qed.

Lemma one_by_one_shape (col : num) (labels : list label) (name : string) :
  LazyScore.shape (LowRankExpr (one_by_one col labels name))
  = Ok (length labels, 1%nat).
Proof.
  unfold LazyScore.shape, LowRank.shape, one_by_one, nrows.
  cbn [ind_logits col_logits data]. now rewrite length_map.
Qed.

Lemma add_mul_shape_tolerance_witness :
  LazyScore.__add__
    (LowRankExpr (one_by_one (Fin 0) (repeat "u"%string (S (Z.to_nat 100000))) "exp"))
    (LowRankExpr (one_by_one (Fin 0) (repeat "u"%string (Z.to_nat 100000)) "exp"))
  = Ok (LazyExpr OpAdd
          [LowRankExpr (one_by_one (Fin 0) (repeat "u"%string (S (Z.to_nat 100000))) "exp");
           LowRankExpr (one_by_one (Fin 0) (repeat "u"%string (Z.to_nat 100000)) "exp")]).
Proof.
  apply (add_mul_shape_tolerance
           (LowRankExpr (one_by_one (Fin 0) (repeat "u"%string (S (Z.to_nat 100000))) "exp"))
           (LowRankExpr (one_by_one (Fin 0) (repeat "u"%string (Z.to_nat 100000)) "exp"))
           (Z.to_nat 100000) 1 eq_refl eq_refl).
  - rewrite one_by_one_shape. now rewrite repeat_length.
  - rewrite one_by_one_shape. now rewrite repeat_length.
  - rewrite Z2Nat.id; lia.
Defined.

(** ** Clipping *)

Lemma clip_num (lo hi : R) (x : num) :
  (lo <= hi)%R -> clipped lo hi (nminimum (nmaximum x (Fin lo)) (Fin hi)).
Proof.
  intro H. destruct x as [r| | |]; unfold nmaximum, nltb.
  - destruct (Rlt_dec r lo); unfold nminimum, nltb; destruct (Rlt_dec hi _);
      simpl; lra.
  - unfold nminimum, nltb. simpl. lra.
  - unfold nminimum, nltb. destruct (Rlt_dec hi lo); simpl; lra.
  - exact I.
Qed.

(** X10: clipping a well-formed expression to the reals from [lo] to
    [hi], [lo] not above [hi], builds a well-formed expression that
    evaluates to an array of the same shape, all of whose entries are reals
    from [lo] to [hi] or NaN, and NaN only where the entry was NaN. *)
Theorem clip_eval_bounds (device : option string) (S : operand) (lo hi : R) :
  wf_expression S = true -> (lo <= hi)%R ->
  exists S' m m',
    LazyScore.clip S (Fin lo) (Fin hi) = Ok S'
    /\ wf_expression S' = true
    /\ LazyScore.eval device S = Ok (VArray m)
    /\ LazyScore.eval device S' = Ok (VArray m')
    /\ array_shape m' = array_shape m
    /\ forall i j, (i < nrows m)%nat -> (j < ncols m)%nat ->
         clipped lo hi (entry m' i j)
         /\ (entry m' i j = NaN -> entry m i j = NaN).
Proof.
  intros HS Hle. apply andb_true_iff in HS as [He Hwf].
  destruct (eval_total device S Hwf) as (v & Ev & Hv).
  destruct (evaluates_expression S v (expression_not_scalar S He) Hv)
    as (m & -> & Hm & Hsm).
  exists (LazyExpr (OpClip (Fin lo) (Fin hi)) [S]), m,
         (amap (fun e => nminimum (nmaximum e (Fin lo)) (Fin hi)) m).
  split; [now apply init_expression|].
  split; [unfold wf_expression; simpl; now rewrite He, Hwf|].
  split; [unfold LazyScore.eval; now rewrite He|].
  split; [unfold LazyScore.eval; cbn [is_expression bind]; now apply eval_clip_node|].
  split; [apply amap_shape|].
  intros i j Hi Hj. rewrite (entry_amap _ m i j Hm Hi Hj).
  split; [now apply clip_num|].
  destruct (entry m i j) as [r| | |]; unfold nmaximum, nminimum, nltb;
    try reflexivity.
  - destruct (Rlt_dec r lo); destruct (Rlt_dec hi _); discriminate.
  - discriminate.
  - destruct (Rlt_dec hi lo); discriminate.
Qed.

Lemma clip_eval_bounds_witness :
  exists S' m',
    LazyScore.clip scenario_sum (Fin 2) (Fin 3) = Ok S'
    /\ LazyScore.eval None S' = Ok (VArray m')
    /\ clipped 2 3 (entry m' 1 0).
Proof.
  destruct (clip_eval_bounds None scenario_sum 2 3 eq_refl ltac:(lra))
    as (S' & m & m' & Ec & _ & Em & Em' & Hs & H).
  exists S', m'. split; [exact Ec|]. split; [exact Em'|].
  destruct (eval_total None scenario_sum eq_refl) as (v & Ev & Hv).
  unfold LazyScore.eval in Em. cbn [is_expression scenario_sum bind] in Em.
  change (LazyExpr OpAdd _) with scenario_sum in Em.
  rewrite Ev in Em. inversion Em; subst v.
  destruct Hv as (_ & _ & Hshape).
  destruct (shape_rows scenario_sum m 2 2 Hshape eq_refl) as [Hr Hc].
  apply H; [rewrite Hr | rewrite Hc]; lia.
Defined.

(** ** Stripping the labels with [values] *)

Lemma wf_labelled_ind (P : operand -> Prop) :
  (forall x, P (Scalar x)) ->
  (forall idx cols sp m, rect m = true -> P (DataFrame idx cols sp m)) ->
  (forall l, wf_lowrank l = true -> P (LowRankExpr l)) ->
  (forall op a b,
      op = OpAdd \/ op = OpMul ->
      is_expression a = true -> wf_labelled a = true -> wf_labelled b = true ->
      is_scalar b || same_shape a b = true ->
      P a -> P b -> P (LazyExpr op [a; b])) ->
  (forall lo hi a,
      is_expression a = true -> wf_labelled a = true ->
      P a -> P (LazyExpr (OpClip lo hi) [a])) ->
  forall c, wf_labelled c = true -> P c.
Proof.
  intros Hs Hd Hl Hbin Hclip.
  fix IH 1.
  intros [x|m|m|idx cols sp m|l|op children] Hwf; simpl in Hwf.
  - apply Hs.
  - discriminate.
  - discriminate.
  - now apply Hd.
  - now apply Hl.
  - destruct op as [| |lo hi].
    + destruct children as [|a [|b [|? ?]]]; try discriminate.
      apply andb_true_iff in Hwf as [Hwf Hsh].
      apply andb_true_iff in Hwf as [Hwf Hb].
      apply andb_true_iff in Hwf as [He Hwa].
      apply Hbin; auto.
    + destruct children as [|a [|b [|? ?]]]; try discriminate.
      apply andb_true_iff in Hwf as [Hwf Hsh].
      apply andb_true_iff in Hwf as [Hwf Hb].
      apply andb_true_iff in Hwf as [He Hwa].
      apply Hbin; auto.
    + destruct children as [|a [|? ?]]; try discriminate.
      apply andb_true_iff in Hwf as [He Hwa].
      apply Hclip; auto.
Qed.

Lemma stripped_is_expression (c : operand) :
  is_expression (stripped c) = is_expression c.
Proof.
  destruct c as [| | |? ? [|] ?| |]; reflexivity.
Qed.

Lemma stripped_is_scalar (c : operand) :
  is_scalar (stripped c) = is_scalar c.
Proof.
  destruct c as [| | |? ? [|] ?| |]; reflexivity.
Qed.

Lemma stripped_shape (c : operand) :
  wf_labelled c = true -> LazyScore.shape (stripped c) = LazyScore.shape c.
Proof.
  intro Hwf. pattern c. revert c Hwf. apply wf_labelled_ind; try reflexivity.
  - intros idx cols [|] m _; reflexivity.
  - intros op a b _ _ _ _ _ IHa _. exact IHa.
  - intros lo hi a _ _ IHa. exact IHa.
Qed.

Lemma stripped_same_shape (a b : operand) :
  wf_labelled a = true -> wf_labelled b = true ->
  same_shape (stripped a) (stripped b) = same_shape a b.
Proof.
  intros Ha Hb. unfold same_shape.
  now rewrite (stripped_shape a Ha), (stripped_shape b Hb).
Qed.

Lemma stripped_wf (c : operand) :
  wf_labelled c = true -> wf_operand (stripped c) = true.
Proof.
  intro Hwf. pattern c. revert c Hwf. apply wf_labelled_ind.
  - reflexivity.
  - intros idx cols [|] m Hm; exact Hm.
  - intros l Hl. exact Hl.
  - intros op a b Hop Hea Hwa Hwb Hsh IHa IHb.
    destruct Hop; subst op; cbn [stripped map wf_operand];
      rewrite stripped_is_expression, Hea, IHa, IHb, stripped_is_scalar,
        (stripped_same_shape a b Hwa Hwb), Hsh; reflexivity.
  - intros lo hi a Hea Hwa IHa. cbn [stripped map wf_operand].
    now rewrite stripped_is_expression, Hea, IHa.
Qed.

Lemma values_node (op : opkind) (children : list operand) :
  LazyScore._auto_values (LazyExpr op children)
  = (kids <- mapM LazyScore._auto_values children ;; LazyScore.__init__ op kids).
Proof.
  reflexivity.
Qed.

Lemma values_stripped (c : operand) :
  wf_labelled c = true -> LazyScore._auto_values c = Ok (stripped c).
Proof.
  intro Hwf. pattern c. revert c Hwf. apply wf_labelled_ind; try reflexivity.
  - intros op a b _ Hea _ _ _ IHa IHb.
    rewrite values_node. cbn [mapM]. rewrite IHa, IHb. cbn [bind].
    apply init_expression. now rewrite stripped_is_expression.
  - intros lo hi a Hea _ IHa.
    rewrite values_node. cbn [mapM]. rewrite IHa. cbn [bind].
    apply init_expression. now rewrite stripped_is_expression.
Qed.

Lemma stripped_no_table (c : operand) :
  wf_labelled c = true -> has_table (stripped c) = false.
Proof.
  intro Hwf. pattern c. revert c Hwf. apply wf_labelled_ind; try reflexivity.
  - intros idx cols [|] m _; reflexivity.
  - intros op a b _ _ _ _ _ IHa IHb. cbn [stripped map has_table existsb].
    now rewrite IHa, IHb.
  - intros lo hi a _ _ IHa. cbn [stripped map has_table existsb].
    now rewrite IHa.
Qed.

Lemma no_table_stripped (c : operand) :
  wf_labelled c = true -> has_table c = false -> stripped c = c.
Proof.
  intro Hwf. pattern c. revert c Hwf. apply wf_labelled_ind; try reflexivity.
  - discriminate.
  - intros op a b _ _ _ _ _ IHa IHb H. cbn [has_table existsb] in H.
    rewrite orb_false_r in H. apply orb_false_iff in H as [Ha Hb].
    cbn [stripped map]. now rewrite (IHa Ha), (IHb Hb).
  - intros lo hi a _ _ IHa H. cbn [has_table existsb] in H.
    rewrite orb_false_r in H. cbn [stripped map]. now rewrite (IHa H).
Qed.

Lemma eval_table (device : option string) (c : operand) :
  wf_labelled c = true -> has_table c = true ->
  LazyScore._auto_eval device c = Err AssertionError.
Proof.
  intro Hwf. pattern c. revert c Hwf. apply wf_labelled_ind; try discriminate.
  - reflexivity.
  - intros op a b _ _ Hwa _ _ IHa IHb H. cbn [has_table existsb] in H.
    rewrite orb_false_r in H. rewrite eval_node. cbn [mapM].
    destruct (has_table a) eqn:Ta.
    + now rewrite (IHa eq_refl).
    + pose proof (stripped_wf a Hwa) as Hw.
      rewrite (no_table_stripped a Hwa Ta) in Hw.
      destruct (eval_total device a Hw) as (va & -> & _). cbn [bind].
      simpl in H. now rewrite (IHb H).
  - intros lo hi a _ _ IHa H. cbn [has_table existsb] in H.
    rewrite orb_false_r in H. rewrite eval_node. cbn [mapM].
    now rewrite (IHa H).
Qed.

Lemma values_of_stripped (c : operand) :
  wf_labelled c = true -> has_table c = true ->
  LazyScore._auto_values (stripped c) = Err NotImplementedError.
Proof.
  intro Hwf. pattern c. revert c Hwf. apply wf_labelled_ind; try discriminate.
  - intros idx cols [|] m _ _; reflexivity.
  - intros op a b _ _ Hwa _ _ IHa IHb H. cbn [has_table existsb] in H.
    rewrite orb_false_r in H. cbn [stripped map]. rewrite values_node. cbn [mapM].
    destruct (has_table a) eqn:Ta.
    + now rewrite (IHa eq_refl).
    + rewrite (no_table_stripped a Hwa Ta), (values_stripped a Hwa). cbn [bind].
      simpl in H. now rewrite (IHb H).
  - intros lo hi a _ _ IHa H. cbn [has_table existsb] in H.
    rewrite orb_false_r in H. cbn [stripped map]. rewrite values_node. cbn [mapM].
    now rewrite (IHa H).
Qed.

(** X11: on an expression built from low-rank matrices, labelled tables
    and scalars, [values] returns the expression with every table replaced
    by its array (sparse or dense); the result has the same shape, is well
    formed and evaluates; without a table the expression is returned
    unchanged. *)
Theorem values_strips_tables (device : option string) (S : operand) :
  is_expression S = true -> wf_labelled S = true ->
  LazyScore._auto_values S = Ok (stripped S)
  /\ LazyScore.shape (stripped S) = LazyScore.shape S
  /\ has_table (stripped S) = false
  /\ wf_expression (stripped S) = true
  /\ (exists m, LazyScore.eval device (stripped S) = Ok (VArray m)
                /\ LazyScore.shape S = Ok (array_shape m))
  /\ (has_table S = false -> stripped S = S).
Proof.
  intros He Hwf.
  split; [now apply values_stripped|].
  split; [now apply stripped_shape|].
  split; [now apply stripped_no_table|].
  pose proof (stripped_wf S Hwf) as Hw.
  pose proof (stripped_is_expression S) as Hes. rewrite He in Hes.
  split; [unfold wf_expression; now rewrite Hes, Hw|].
  split; [|now apply no_table_stripped].
  destruct (eval_total device (stripped S) Hw) as (v & Ev & Hv).
  destruct (evaluates_expression _ v (expression_not_scalar _ Hes) Hv)
    as (m & -> & _ & Hsm).
  exists m. split.
  - unfold LazyScore.eval. now rewrite Hes.
  - now rewrite <- (stripped_shape S Hwf).
Qed.

Lemma values_strips_tables_witness :
  LazyScore._auto_values labelled_sum = Ok scenario_sum
  /\ exists m, LazyScore.eval None scenario_sum = Ok (VArray m).
Proof.
  destruct (values_strips_tables None labelled_sum eq_refl eq_refl)
    as (Hv & _ & _ & _ & (m & Em & _) & _).
  split; [exact Hv|]. exists m. exact Em.
Defined.

(** X12: an expression that holds a labelled table cannot be evaluated
    before [values] is taken (AssertionError), and [values] cannot be taken
    a second time, of the stripped expression (NotImplementedError). *)
Theorem eval_needs_values (device : option string) (S : operand) :
  is_expression S = true -> wf_labelled S = true -> has_table S = true ->
  LazyScore.eval device S = Err AssertionError
  /\ exists S', LazyScore._auto_values S = Ok S'
                /\ LazyScore._auto_values S' = Err NotImplementedError.
Proof.
  intros He Hwf Ht. split.
  - unfold LazyScore.eval. rewrite He. cbn [bind]. now apply eval_table.
  - exists (stripped S). split; [now apply values_stripped|].
    now apply values_of_stripped.
Qed.

Lemma eval_needs_values_witness :
  LazyScore.eval None labelled_sum = Err AssertionError
  /\ exists S', LazyScore._auto_values labelled_sum = Ok S'
                /\ LazyScore._auto_values S' = Err NotImplementedError.
Proof.
  exact (eval_needs_values None labelled_sum eq_refl eq_refl eq_refl).
Defined.

(** ** Reindexing the columns, and reindexing to the labels at hand *)




(** X14: reindexing the rows of a well-formed low-rank matrix with
    pairwise distinct row labels to its own labels returns a matrix with
    the same labels that evaluates to the same array, whatever the fill
    value. *)
Theorem reindex_own_labels (l : LowRankDataFrame) (fill : num) :
  wf_lowrank l = true ->
  has_dup (index l) = false ->
  exists l',
    LowRank.reindex l (index l) 0 fill = Ok l'
    /\ index l' = index l /\ columns l' = columns l
    /\ LowRank.eval None l' = LowRank.eval None l.
Proof.
  intros Hl Hd.
  pose proof (reindex_rows_Ok l (index l) fill Hl Hd) as E.
  pose proof (lowrank_reindex_rows_wf l _ (index l) fill Hl E) as Hwf.
  exists (reindexed l (index l) fill).
  split; [exact E|]. split; [reflexivity|]. split; [reflexivity|].
  rewrite (lowrank_eval None _ Hwf), (lowrank_eval None l Hl). do 2 f_equal.
  pose proof Hl as Hl'.
  apply wf_lowrank_iff in Hl' as (_ & _ & _ & Hi & _).
  apply Nat.eqb_eq in Hi. unfold nrows in Hi.
  apply ndarray_eq.
  - unfold dense_of, reindexed, np_pad, nrows. cbn [ncols data col_logits repeat].
    now rewrite app_nil_r, length_map.
  - apply (nth_ext _ _ [] []).
    + unfold dense_of, reindexed. cbn [data ind_logits].
      rewrite !length_map. now rewrite Hi.
    + intros p Hp.
      assert (Hlt : (p < length (index l))%nat).
      { unfold dense_of, reindexed in Hp. cbn [data ind_logits] in Hp.
        now rewrite !length_map in Hp. }
      destruct (nth_error (index l) p) as [lbl|] eqn:Hn;
        [|apply nth_error_None in Hn; lia].
      rewrite (reindexed_dense_row l (index l) fill p lbl Hn).
      apply reindexed_present_row; [exact Hl|].
      now apply find_pos_nth_error.
Qed.

Lemma reindex_own_labels_witness :
  exists l',
    LowRank.reindex scenario ["a"; "b"]%string 0 NaN = Ok l'
    /\ LowRank.eval None l' = LowRank.eval None scenario.
Proof.
  destruct (reindex_own_labels scenario NaN eq_refl eq_refl) as (l' & E & _ & _ & H).
  exists l'. split; [exact E | exact H].
Defined.

(** ** Reindexing a sparse table *)

Lemma sparse_setrow (m : ndarray num) (fill : num) :
  setrow (np_pad m 1 0 (Fin 0)) (-1) fill
  = Ok {| ncols := ncols m + 0; data := data m ++ [repeat fill (ncols m + 0)] |}.
Proof.
  unfold setrow, np_pad, nrows. cbn [data ncols repeat].
  rewrite (map_ext _ (fun r => r)) by (intro r; apply app_nil_r).
  rewrite map_id, length_app. cbn [length].
  rewrite np_index_last by lia. cbn [bind].
  replace (length (data m) + 1 - 1)%nat with (length (data m)) by lia.
  now rewrite set_nth_app_last.
Qed.

Lemma sparse_take_rows (idx : list label) (m : ndarray num) (fill : num)
    (new_index : list label) :
  length idx = nrows m ->
  take_rows {| ncols := ncols m + 0; data := data m ++ [repeat fill (ncols m + 0)] |}
    (map (fun lbl => match find_pos lbl idx with
                     | Some p => Z.of_nat p
                     | None => (-1)%Z
                     end) new_index)
  = Ok (table_rows idx m fill new_index).
Proof.
  intro Hi. unfold nrows in Hi. rewrite Nat.add_0_r.
  rewrite (take_rows_at _ _
             (map (fun lbl => match find_pos lbl idx with
                              | Some p => p
                              | None => length (data m)
                              end) new_index)).
  - unfold rows_at, table_rows. cbn [ncols data]. do 2 f_equal.
    rewrite map_map. apply map_ext. intro lbl. unfold table_row.
    destruct (find_pos lbl idx) as [q|] eqn:E.
    + apply find_pos_lt in E. now rewrite app_nth1 by lia.
    + apply nth_app_last.
  - unfold nrows. cbn [data]. rewrite length_app. cbn [length].
    rewrite mapM_map. apply mapM_Ok_map. intros lbl _.
    destruct (find_pos lbl idx) as [q|] eqn:E.
    + apply find_pos_lt in E. apply np_index_nat. lia.
    + rewrite np_index_last by lia. f_equal. lia.
Qed.

Lemma sparse_reindex_rows_Ok (idx cols : list label) (m : ndarray num)
    (new_index : list label) (fill : num) :
  length idx = nrows m -> length cols = ncols m -> has_dup idx = false ->
  pd_sparse_reindex_rows (DataFrame idx cols true m) new_index fill
  = Ok (DataFrame new_index cols true (table_rows idx m fill new_index)).
Proof.
  intros Hi Hc Hd. unfold pd_sparse_reindex_rows. cbn [df_to_coo df_labels bind fst snd].
  rewrite sparse_setrow. cbn [bind].
  rewrite (series_reindex_Ok (nrows m) idx new_index Hi Hd). cbn [bind].
  rewrite (sparse_take_rows idx m fill new_index Hi). cbn [bind].
  unfold from_spmatrix, table_rows, nrows. cbn [ncols data].
  now rewrite length_map, Hc, !Nat.eqb_refl.
Qed.

Lemma table_rows_rect (idx : list label) (m : ndarray num) (fill : num)
    (new_index : list label) :
  rect m = true -> length idx = nrows m ->
  rect (table_rows idx m fill new_index) = true.
Proof.
  intros Hm Hi. apply rect_Forall. unfold table_rows. cbn [ncols data].
  apply Forall_map, Forall_forall. intros lbl _. unfold table_row.
  destruct (find_pos lbl idx) as [q|] eqn:E.
  - apply find_pos_lt in E. apply rect_nth_length; [exact Hm | lia].
  - apply repeat_length.
Qed.

Lemma table_rows_nth (idx : list label) (m : ndarray num) (fill : num)
    (new_index : list label) (p : nat) (lbl : label) :
  nth_error new_index p = Some lbl ->
  nth p (data (table_rows idx m fill new_index)) [] = table_row idx m fill lbl.
Proof.
  intro Hp.
  assert (Hlt : (p < length new_index)%nat) by (apply nth_error_Some; congruence).
  unfold table_rows. cbn [data].
  rewrite (nth_map_lt _ _ _ EmptyString) by exact Hlt.
  f_equal. now apply nth_error_nth.
Qed.

(** X15: reindexing the rows of a sparse table with pairwise distinct row
    labels returns a sparse table over the new labels and the same
    columns; its row at a label of the original is the row the label had,
    and its row at a label that is not in the original holds [fill_value]
    in every column, whatever the fill value. *)
Theorem pd_sparse_reindex_spec (idx cols : list label) (m : ndarray num)
    (new_index : list label) (fill : num) :
  rect m = true -> length idx = nrows m -> length cols = ncols m ->
  has_dup idx = false ->
  exists m',
    pd_sparse_reindex (DataFrame idx cols true m) new_index 0 fill
    = Ok (DataFrame new_index cols true m')
    /\ rect m' = true
    /\ array_shape m' = (length new_index, length cols)
    /\ forall p lbl,
         nth_error new_index p = Some lbl ->
         (forall q, nth_error idx q = Some lbl ->
                    nth p (data m') [] = nth q (data m) [])
         /\ (~ In lbl idx -> nth p (data m') [] = repeat fill (length cols)).
Proof.
  intros Hm Hi Hc Hd. exists (table_rows idx m fill new_index).
  split.
  { unfold pd_sparse_reindex. simpl Z.eqb. cbv iota.
    now apply sparse_reindex_rows_Ok. }
  split; [now apply table_rows_rect|].
  split.
  { unfold array_shape, table_rows, nrows. cbn [ncols data].
    now rewrite length_map, Hc. }
  intros p lbl Hp. rewrite (table_rows_nth idx m fill new_index p lbl Hp).
  unfold table_row. split.
  - intros q Hq. now rewrite (find_pos_nth_error lbl idx q Hd Hq).
  - intro Hnot. now rewrite (find_pos_None lbl idx Hnot), Hc.
Qed.

Lemma pd_sparse_reindex_spec_witness :
  exists m',
    pd_sparse_reindex sparse_table ["b"; "c"]%string 0 (Fin (-1))
    = Ok (DataFrame ["b"; "c"]%string ["x"; "y"; "z"]%string true m')
    /\ nth 0 (data m') [] = [Fin 0; Fin 3; Fin 0]
    /\ nth 1 (data m') [] = [Fin (-1); Fin (-1); Fin (-1)].
Proof.
  destruct (pd_sparse_reindex_spec ["a"; "b"]%string ["x"; "y"; "z"]%string
              {| ncols := 3; data := [[Fin 1; Fin 0; Fin 2]; [Fin 0; Fin 3; Fin 0]] |}
              ["b"; "c"]%string (Fin (-1)) eq_refl eq_refl eq_refl eq_refl)
    as (m' & E & _ & _ & H).
  exists m'. split; [exact E|]. split.
  - destruct (H 0%nat "b"%string eq_refl) as [Hb _]. now apply (Hb 1%nat).
  - destruct (H 1%nat "c"%string eq_refl) as [_ Hc]. apply Hc.
    simpl. intros [F|[F|[]]]; discriminate.
Defined.

(** X16: reindexing the columns of a sparse table with pairwise distinct
    column labels returns a sparse table over the same rows and the new
    columns; its column at a label of the original is the column the label
    had, and its column at a label that is not in the original holds
    [fill_value] in every row. *)
Theorem pd_sparse_reindex_columns (idx cols : list label) (m : ndarray num)
    (new_columns : list label) (fill : num) :
  rect m = true -> length idx = nrows m -> length cols = ncols m ->
  has_dup cols = false ->
  exists m',
    pd_sparse_reindex (DataFrame idx cols true m) new_columns 1 fill
    = Ok (DataFrame idx new_columns true m')
    /\ rect m' = true
    /\ array_shape m' = (length idx, length new_columns)
    /\ forall p lbl,
         nth_error new_columns p = Some lbl ->
         (forall q, nth_error cols q = Some lbl ->
                    nth p (data (transpose m')) [] = nth q (data (transpose m)) [])
         /\ (~ In lbl cols ->
             nth p (data (transpose m')) [] = repeat fill (length idx)).
Proof.
  intros Hm Hi Hc Hd.
  assert (Hc' : length cols = nrows (transpose m))
    by now rewrite (transpose_nrows m Hm).
  assert (Hi' : length idx = ncols (transpose m)) by exact Hi.
  pose proof (table_rows_rect cols (transpose m) fill new_columns
                (transpose_rect m) Hc') as Hr.
  exists (transpose (table_rows cols (transpose m) fill new_columns)).
  split.
  { unfold pd_sparse_reindex. simpl Z.eqb. cbv iota.
    cbn [LazyScore.T bind].
    rewrite (sparse_reindex_rows_Ok cols idx (transpose m) new_columns fill Hc' Hi' Hd).
    reflexivity. }
  split; [apply transpose_rect|].
  split.
  { rewrite (transpose_shape _ Hr). unfold table_rows, nrows. cbn [ncols data].
    now rewrite length_map, Hi. }
  intros p lbl Hp. rewrite (transpose_involutive _ Hr).
  rewrite (table_rows_nth cols (transpose m) fill new_columns p lbl Hp).
  unfold table_row. split.
  - intros q Hq. now rewrite (find_pos_nth_error lbl cols q Hd Hq).
  - intro Hnot. rewrite (find_pos_None lbl cols Hnot). now rewrite <- Hi'.
Qed.

Lemma pd_sparse_reindex_columns_witness :
  exists m',
    pd_sparse_reindex sparse_table ["z"; "w"]%string 1 (Fin 5)
    = Ok (DataFrame ["a"; "b"]%string ["z"; "w"]%string true m')
    /\ nth 1 (data (transpose m')) [] = [Fin 5; Fin 5].
Proof.
  destruct (pd_sparse_reindex_columns ["a"; "b"]%string ["x"; "y"; "z"]%string
              {| ncols := 3; data := [[Fin 1; Fin 0; Fin 2]; [Fin 0; Fin 3; Fin 0]] |}
              ["z"; "w"]%string (Fin 5) eq_refl eq_refl eq_refl eq_refl)
    as (m' & E & _ & _ & H).
  exists m'. split; [exact E|].
  destruct (H 1%nat "w"%string eq_refl) as [_ Hw]. apply Hw.
  simpl. intros [F|[F|[F|[]]]]; discriminate.
Defined.

(** ** Length and size *)



